(** * tutorialTF / RL: experience-replay training of DQN and Dueling-DQN agents

    A shallow embedding of the Python sources
      - RL/DeepQLearning/model_dqn.py
      - RL/DeepQLearning/train.py
      - RL/DuelingDoubleDQN/model_dd_dqn.py
      - RL/DuelingDoubleDQN/main.py
    and the properties of the training loop stated about them.

    Conventions of the embedding.
      - A torch float tensor holds real numbers: a 1-D tensor is [list R], a
        2-D tensor (batch x actions) is [list (list R)].  Rounding, infinities
        and NaN of the float32 arithmetic are outside the model.
      - Python integers are [Z]; indices into lists are [nat] once checked.
      - A Python exception is a value [Raise e] of the type [result].
      - Random draws ([np.random.random], [np.random.randint], the sampling
        of a batch) and the answers of the environment are inputs of the
        functions that consume them.
      - Parameters of a network live in a store of tensors addressed by
        location, so that sharing of storage between two networks can be
        expressed. *)

From Stdlib Require Import String.
From Stdlib Require Import Reals Lra Lia ZArith List.
From stdpp Require Import base option list gmap.

Set Default Proof Using "Type".

(** ** Exceptions *)

Inductive Error : Set :=
| InsufficientDataError
| IndexError
| ZeroDivisionError
| ValueError
| RuntimeError
| NameError.

Inductive result (A : Type) : Type :=
| Ok (a : A)
| Raise (e : Error).
Arguments Ok {A} a.
Arguments Raise {A} e.

Definition rbind {A B} (m : result A) (k : A -> result B) : result B :=
  match m with
  | Ok a => k a
  | Raise e => Raise e
  end.

Notation "'let*' x ':=' m 'in' k" := (rbind m (fun x => k))
  (at level 10, x name, m at level 100, k at level 200).

(** ** Tensors of reals *)

Module Tensor.

Local Open Scope R_scope.

(** [c - t] and [c * t] for a Python scalar [c] and a 1-D tensor [t]. *)
Definition rsub_scalar (c : R) (t : list R) : list R := map (fun x => c - x) t.
Definition mul_scalar (c : R) (t : list R) : list R := map (fun x => c * x) t.

(** An elementwise binary operation on two 1-D tensors, with torch's
    broadcasting: the sizes agree, or one of them is 1; anything else is a
    RuntimeError. *)
Definition broadcast2 {A} (f : A -> A -> A) (xs ys : list A) : result (list A) :=
  if decide (length xs = length ys) then Ok (zip_with f xs ys)
  else match xs, ys with
       | [x], _ => Ok (map (f x) ys)
       | _, [y] => Ok (map (fun x => f x y) xs)
       | _, _ => Raise RuntimeError
       end.

Definition add : list R -> list R -> result (list R) := broadcast2 Rplus.
Definition mul : list R -> list R -> result (list R) := broadcast2 Rmult.
Definition add_long : list Z -> list Z -> result (list Z) := broadcast2 Z.add.

(** [t.max(dim=0)[0]] of a 1-D tensor; torch refuses to reduce over a
    dimension of size 0, with an IndexError. *)
Fixpoint max_value (t : list R) : result R :=
  match t with
  | [] => Raise IndexError
  | [x] => Ok x
  | x :: t' => let* m := max_value t' in Ok (Rmax x m)
  end.

(** [t.max(dim=1)[0]] of a 2-D tensor: the maximum of every row. *)
Fixpoint max_dim1 (t : list (list R)) : result (list R) :=
  match t with
  | [] => Ok []
  | row :: t' => let* m := max_value row in let* ms := max_dim1 t' in Ok (m :: ms)
  end.

(** [torch.sum(t)] and [torch.mean(t)] over the entries of a 1-D tensor. *)
Definition sum (t : list R) : R := fold_right Rplus 0 t.
Definition mean (t : list R) : R := sum t / INR (length t).

(** The index returned by [torch.max(t, dim=0)[1]]: the first position
    that holds the maximum. *)
Fixpoint argmax_from (i : nat) (best : nat) (bv : R) (t : list R) : nat :=
  match t with
  | [] => best
  | x :: t' => if Rlt_dec bv x then argmax_from (S i) i x t'
               else argmax_from (S i) best bv t'
  end.

Definition argmax (t : list R) : result nat :=
  match t with
  | [] => Raise RuntimeError
  | x :: t' => Ok (argmax_from 1 0 x t')
  end.

End Tensor.

(** ** RL/DeepQLearning/model_dqn.py *)

Module DQN.

Local Open Scope R_scope.

(** The names bound at the top level of model_dqn.py: the imports of lines
    1-6 and the definitions of lines 10 and 24. *)
Definition module_names : list String.string :=
  ["np"; "torch"; "nn"; "Variable"; "NetworkType"; "TENSOR_TYPE";
   "epsilon_greedy_policy"; "DQN_Network"]%string.

(** The look-up of a global name inside a function of the module; a name
    that the module does not bind (and that is no builtin) is a NameError. *)
Definition global (name : String.string) : result unit :=
  if existsb (String.eqb name) module_names then Ok tt else Raise NameError.

Section Network.

(** One observation: the stacked frames of a state. *)
Context {State : Type}.

(** [DQN_Network]: the sizes given to the constructor, and the function
    computed on one sample by conv1, conv2, conv3, fc1 and fc2 with their
    ReLUs.  The rows of a batch are processed independently. *)
Record DQN_Network : Type := {
  batch_size : nat;
  action_space : nat;
  q_fun : State -> list R
}.

(** [forward]: the predictions for a batch, one row per sample (the
    value cached in [self.prediction]). *)
Definition forward (network : DQN_Network) (X : list State) : list (list R) :=
  map (q_fun network) X.

(** [epsilon_greedy_policy(network)], the closure [policy_fn]. *)
Definition policy_fn (network : DQN_Network) (observation : State) (epsilon : R)
  : result (list R) :=
  let A := replicate (action_space network)
             (1 * epsilon / INR (action_space network)) in
  match forward network [observation] with
  | [] => Raise IndexError
  | q_values :: _ =>
      let* best_action := Tensor.argmax q_values in
      match A !! best_action with
      | Some a => Ok (<[best_action := a + (1 - epsilon)]> A)
      | None => Raise IndexError
      end
  end.

(** [t[i]] for a Python index [i] of a 1-D tensor: negative indices count
    from the end, anything outside is an IndexError. *)
Definition index {A} (t : list A) (i : Z) : result A :=
  let n := Z.of_nat (length t) in
  let j := if (i <? 0)%Z then (i + n)%Z else i in
  if ((0 <=? j)%Z && (j <? n)%Z)%bool then
    match t !! Z.to_nat j with
    | Some x => Ok x
    | None => Raise IndexError
    end
  else Raise IndexError.

(** [t[idx]] for a tensor of indices. *)
Fixpoint gather {A} (t : list A) (idx : list Z) : result (list A) :=
  match idx with
  | [] => Ok []
  | i :: idx' => let* x := index t i in let* xs := gather t idx' in Ok (x :: xs)
  end.

(** Lines 96-100 as they compute once [i_type] is the constructor of a
    tensor of integers: [prediction] is the cached output of the last
    [forward], [actions] the integer ids of the chosen actions. *)
Definition flat_gather (network : DQN_Network)
    (prediction : list (list R)) (actions : list Z) : result (list R) :=
  let actions_pl := actions in
  let* mask_index :=
    Tensor.add_long
      (map (fun i => (Z.of_nat i * Z.of_nat (action_space network))%Z)
           (seq 0 (batch_size network)))
      actions_pl in
  gather (concat prediction) mask_index.

(** [compute_action_pred]: line 96 reads the global [i_type] before anything
    else, and the call raises when the module does not bind it. *)
Definition compute_action_pred (network : DQN_Network)
    (prediction : list (list R)) (actions : list Z) : result (list R) :=
  let* _ := global "i_type" in
  flat_gather network prediction actions.

End Network.

End DQN.

(** ** RL/DuelingDoubleDQN/model_dd_dqn.py *)

Module DDDQN.

Local Open Scope R_scope.

(** [np.random.randint(low=0, high=high)]: ValueError when the range is
    empty, otherwise the raw draw brought into [0, high). *)
Definition randint (high : nat) (draw : nat) : result nat :=
  if decide (high = 0)%nat then Raise ValueError else Ok (draw mod high)%nat.

(** The threshold computed on line 18 from the closure's parameters and
    the number of steps done.  [math.exp] is the exponential of the reals:
    the OverflowError of Python on an argument beyond the range of a float
    is, like the rest of the float arithmetic, outside the model. *)
Definition eps_threshold (eps_end eps_start eps_decay : R) (steps_done : Z) : R :=
  eps_end + (eps_start - eps_end) * exp (-1 * IZR steps_done * eps_decay).

Section Network.

Context {State : Type}.

(** [DDDQN_Network]: the shared convolutions followed by the value
    stream (value_fc, value: one output) and the advantage stream
    (advantage_fc, advantage: one output per action), as functions of
    one sample. *)
Record DDDQN_Network : Type := {
  batch_size : nat;
  action_space : nat;
  value_stream : State -> R;
  advantage_stream : State -> list R
}.

(** The two heads on a batch: [value] has shape (batch, 1) and
    [advantage] shape (batch, action_space). *)
Definition value (network : DDDQN_Network) (X : list State) : list R :=
  map (value_stream network) X.
Definition advantage (network : DDDQN_Network) (X : list State) : list (list R) :=
  map (advantage_stream network) X.

(** [value + (advantage - torch.mean(advantage, dim=1, keepdim=True))]
    on one row: the row's mean and the row's value are broadcast over
    the actions. *)
Definition combine (v : R) (adv : list R) : list R :=
  map (fun a => v + (a - Tensor.mean adv)) adv.

Definition forward (network : DDDQN_Network) (X : list State) : list (list R) :=
  zip_with combine (value network X) (advantage network X).

(** [compute_q_value]: [actions] holds one row per sample, multiplied
    entry by entry with the Q-values and summed along dim 1. *)
Definition mul_sum_dim1 (q_values actions : list (list R)) : list R :=
  zip_with (fun q a => Tensor.sum (zip_with Rmult q a)) q_values actions.

Definition compute_q_value (network : DDDQN_Network)
    (state : list State) (actions : list (list R)) : list R :=
  let q_values := forward network state in
  mul_sum_dim1 q_values actions.

(** The one-hot row of action [a] among [n] actions. *)
Definition one_hot (n a : nat) : list R :=
  map (fun j => if decide (j = a) then 1 else 0) (seq 0 n).

(** [epsilon_greedy_policy(network, eps_end, eps_start, eps_decay,
    actions, device)], the closure [policy_fn].  [sample] is the value of
    [np.random.random()] and [draw] the raw draw behind
    [np.random.randint]. *)
Definition policy_fn {Act} (network : DDDQN_Network)
    (eps_end eps_start eps_decay : R) (actions : list Act)
    (sample : R) (draw : nat)
    (observation : State) (steps_done : Z) : result (nat * R) :=
  let eps_threshold := eps_threshold eps_end eps_start eps_decay steps_done in
  if Rgt_dec sample eps_threshold then
    match forward network [observation] with
    | [] => Raise IndexError
    | q_values :: _ =>
        let* best_action := Tensor.argmax q_values in
        Ok (best_action, eps_threshold)
    end
  else
    let* a := randint (length actions) draw in
    Ok (a, eps_threshold).

End Network.

End DDDQN.

(** ** Parameters of the networks and their storage *)

Module Params.

Local Open Scope R_scope.

(** The storage of the parameter tensors: a parameter is a location, its
    tensor (flattened) is what the store holds there. *)
Abbreviation Store := (gmap nat (list R)).

(** An [nn.Module] as far as its parameters go: the locations of its
    parameter tensors, in the order of [parameters()] and [state_dict()]. *)
Abbreviation Net := (list nat).

(** [net.state_dict()]: references to the module's own tensors, not
    copies. *)
Definition state_dict (net : Net) : Net := net.

(** The current values of the parameters of [net]. *)
Fixpoint parameters (h : Store) (net : Net) : result (list (list R)) :=
  match net with
  | [] => Ok []
  | l :: net' =>
      match h !! l with
      | Some v => let* vs := parameters h net' in Ok (v :: vs)
      | None => Raise RuntimeError
      end
  end.

(** [net.load_state_dict(sd)]: every parameter of [net] receives, by
    [copy_], the value of the entry of [sd] at the same key; a missing or
    unexpected key or a size mismatch is a RuntimeError. *)
Fixpoint load_state_dict (net : Net) (sd : Net) (h : Store) : result Store :=
  match net, sd with
  | [], [] => Ok h
  | l :: net', src :: sd' =>
      match h !! l, h !! src with
      | Some old, Some v =>
          if decide (length old = length v)
          then load_state_dict net' sd' (<[l := v]> h)
          else Raise RuntimeError
      | _, _ => Raise RuntimeError
      end
  | _, _ => Raise RuntimeError
  end.

(** In-place assignment of new values to the parameters of [net]. *)
Fixpoint assign (net : Net) (vs : list (list R)) (h : Store) : Store :=
  match net, vs with
  | l :: net', v :: vs' => assign net' vs' (<[l := v]> h)
  | _, _ => h
  end.

(** [net.forward(X)] for a network whose architecture computes [arch ps]
    on one sample under the parameter values [ps]. *)
Definition forward {State} (arch : list (list R) -> State -> list R)
    (h : Store) (net : Net) (X : list State) : result (list (list R)) :=
  let* ps := parameters h net in Ok (map (arch ps) X).

End Params.

(** ** The parts of torch used by the update step *)

Module Optim.

Local Open Scope R_scope.

(** The 2-norm of all gradients taken together. *)
Definition total_norm (grads : list (list R)) : R :=
  sqrt (Tensor.sum (map (fun g => g * g) (concat grads))).

(** [torch.nn.utils.clip_grad_norm(parameters, max_norm)]: the gradients
    are scaled by [max_norm / (total_norm + 1e-6)] when that is below 1. *)
Definition clip_grad_norm (max_norm : R) (grads : list (list R)) : list (list R) :=
  let clip_coef := max_norm / (total_norm grads + / 1000000) in
  if Rlt_dec clip_coef 1 then map (Tensor.mul_scalar clip_coef) grads else grads.

(** [torch.optim.RMSprop(params, lr)] with torch's defaults
    (alpha = 0.99, eps = 1e-8, no momentum, not centered): the state is
    the running average of the squared gradients. *)
Definition rmsprop_square_avg (sq g : list R) : list R :=
  zip_with (fun s x => 99 / 100 * s + (1 - 99 / 100) * (x * x)) sq g.

Definition rmsprop_param (lr : R) (p sq g : list R) : list R :=
  zip_with (fun x sg => x - lr * (snd sg / (sqrt (fst sg) + / 100000000)))
           p (zip sq g).

(** [optimizer.step()]: the new running averages and the new values of the
    parameters. *)
Definition RMSprop_step (lr : R) (sqs ps gs : list (list R))
  : list (list R) * list (list R) :=
  let sqs' := zip_with rmsprop_square_avg sqs gs in
  (sqs', zip_with (fun p sg => rmsprop_param lr p (fst sg) (snd sg))
                  ps (zip sqs' gs)).

End Optim.

(** ** RL/DeepQLearning/train.py *)

Module Train.

Local Open Scope R_scope.
Import Params.

(** [float(done)] *)
Definition float_of_bool (b : bool) : R := if b then 1 else 0.

(** Lines 167-168: the TD targets of a batch, from the rewards, the done
    flags (as floats) and the output of the target network on the next
    states. *)
Definition td_target (discount_factor : R) (reward_batch done_batch : list R)
    (t_forward : list (list R)) : result (list R) :=
  let* q_value_next_max := Tensor.max_dim1 t_forward in
  let* bootstrap := Tensor.mul (Tensor.rsub_scalar 1 done_batch) q_value_next_max in
  Tensor.add reward_batch (Tensor.mul_scalar discount_factor bootstrap).

(** Lines 64, 92 and 111: [torch.stack([state] * 4, dim=1)]. *)
Definition stack4 {Frame} (frame : Frame) : list Frame := replicate 4 frame.

(** Lines 69 and 122:
    [torch.cat((state[:, 1:, :, :], next_state.unsqueeze(dim=0)), dim=1)]. *)
Definition slide {Frame} (state : list Frame) (frame : Frame) : list Frame :=
  drop 1 state ++ [frame].

(** Line 139: [GLOBAL_STEP % args.update_target_estimator_every == 0]. *)
Definition sync_due (GLOBAL_STEP update_target_estimator_every : Z) : result bool :=
  if decide (update_target_estimator_every = 0)%Z then Raise ZeroDivisionError
  else Ok (GLOBAL_STEP mod update_target_estimator_every =? 0)%Z.

(** Lines 139-140. *)
Definition sync_target (q_network t_network : Net)
    (GLOBAL_STEP update_target_estimator_every : Z) (h : Store) : result Store :=
  let* due := sync_due GLOBAL_STEP update_target_estimator_every in
  if due then load_state_dict t_network (state_dict q_network) h else Ok h.

Section Buffer.

Context {Frame : Type}.

(** The namedtuple of line 32. *)
Record Transition : Type := {
  state : list Frame;
  action : nat;
  reward : R;
  next_state : list Frame;
  done : R
}.

(** Modelled from the spec: [helper.ExperienceBuffer], whose source is not
    part of the repository files at hand.  A ring of at most [buffer_size]
    transitions with a write cursor: [add] appends while there is room and
    otherwise overwrites the slot under the cursor, which then advances
    circularly; [sample] fails with InsufficientDataError when fewer than
    [batch_size] transitions are stored and otherwise returns [batch_size]
    transitions drawn with replacement. *)
Record ExperienceBuffer : Type := {
  buffer_size : nat;
  items : list Transition;
  cursor : nat
}.

Definition new_buffer (buffer_size : nat) : ExperienceBuffer :=
  {| buffer_size := buffer_size; items := []; cursor := 0 |}.

Definition add (tr : Transition) (b : ExperienceBuffer) : ExperienceBuffer :=
  if decide (length (items b) < buffer_size b)%nat then
    {| buffer_size := buffer_size b; items := items b ++ [tr]; cursor := cursor b |}
  else
    {| buffer_size := buffer_size b;
       items := <[cursor b := tr]> (items b);
       cursor := (cursor b + 1) mod buffer_size b |}.

(** [draws i] is the raw random number behind the [i]-th draw. *)
Definition sample (b : ExperienceBuffer) (batch_size : nat) (draws : nat -> nat)
  : result (list Transition) :=
  if decide (length (items b) < batch_size)%nat then Raise InsufficientDataError
  else Ok (omap (fun i => items b !! (draws i mod length (items b))%nat)
                (seq 0 batch_size)).

End Buffer.

Arguments Transition : clear implicits.
Arguments ExperienceBuffer : clear implicits.

(** The arguments of the command line read by [work]. *)
Record Args : Type := {
  replay_memory_size : nat;
  replay_memory_init_size : nat;
  update_target_estimator_every : Z;
  batch_size : nat;
  discount_factor : R;
  max_grad_norm : R
}.

Section Work.

(** The raw frames of the environment and the frames produced by
    [helper.state_processor]; everything outside the program that answers
    it (the environment and the random number generators); the state of
    the optimizer. *)
Context {RawFrame Frame World OptState : Type}.

(** What [work] is given and what it calls. *)
Record Setup : Type := {
  (** [env.reset()] and [env.step(action)] *)
  env_reset : World -> World * RawFrame;
  env_step : World -> nat -> World * (RawFrame * R * bool);
  (** [helper.state_processor] *)
  state_processor : RawFrame -> Frame;
  (** the architecture shared by the two networks, as a function of the
      parameter values and one state *)
  arch : list (list R) -> list Frame -> list R;
  (** [action, epsilon = policy(state, GLOBAL_STEP)] of lines 66 and 119:
      the closure built on line 58 over [q_network] (here: over the values
      of its parameters) is called and its answer is unpacked into the
      action and the epsilon; a call or an unpacking that fails is an
      error of this field *)
  policy : list (list R) -> World -> list Frame -> Z -> result (World * (nat * R));
  (** the raw draws consumed by one call of [replay_memory.sample] *)
  sample_draws : World -> World * (nat -> nat);
  (** [loss.backward()]: the gradients of the loss of lines 165 and 173
      with respect to the parameters of [q_network], given their values,
      the batch and the targets; the values of the loss and their report
      to the console and to visdom (lines 177-188) are not modelled *)
  backward : list (list R) -> list (Transition Frame) -> list R -> list (list R);
  (** [optimizer.step()]: the new state of the optimizer and the new values
      of the parameters, from the old ones and the gradients *)
  opt_step : OptState -> list (list R) -> list (list R) -> OptState * list (list R);
  args : Args;
  q_network : Net;
  t_network : Net
}.

(** What the run does, in order (latest first): the observable calls. *)
Inductive Event : Type :=
| EvPolicy (state : list Frame) (GLOBAL_STEP : Z)
| EvEnvStep (action : nat)
| EvAdd (tr : Transition Frame)
| EvUpdate (batch : list (Transition Frame))
| EvYield (GLOBAL_STEP : Z).

(** The variables of [work] that live across iterations. *)
Record Loop : Type := {
  world : World;
  GLOBAL_STEP : Z;
  cur_state : list Frame;
  replay_memory : ExperienceBuffer Frame;
  heap : Store;
  opt : OptState;
  episode_rewards : R;
  episode_lengths : Z;
  i_episode : Z;
  trace : list Event
}.

Definition set_world (w : World) (l : Loop) : Loop :=
  {| world := w; GLOBAL_STEP := GLOBAL_STEP l; cur_state := cur_state l;
     replay_memory := replay_memory l; heap := heap l; opt := opt l;
     episode_rewards := episode_rewards l; episode_lengths := episode_lengths l;
     i_episode := i_episode l; trace := trace l |}.

Definition set_GLOBAL_STEP (s : Z) (l : Loop) : Loop :=
  {| world := world l; GLOBAL_STEP := s; cur_state := cur_state l;
     replay_memory := replay_memory l; heap := heap l; opt := opt l;
     episode_rewards := episode_rewards l; episode_lengths := episode_lengths l;
     i_episode := i_episode l; trace := trace l |}.

Definition set_state (s : list Frame) (l : Loop) : Loop :=
  {| world := world l; GLOBAL_STEP := GLOBAL_STEP l; cur_state := s;
     replay_memory := replay_memory l; heap := heap l; opt := opt l;
     episode_rewards := episode_rewards l; episode_lengths := episode_lengths l;
     i_episode := i_episode l; trace := trace l |}.

Definition set_replay_memory (m : ExperienceBuffer Frame) (l : Loop) : Loop :=
  {| world := world l; GLOBAL_STEP := GLOBAL_STEP l; cur_state := cur_state l;
     replay_memory := m; heap := heap l; opt := opt l;
     episode_rewards := episode_rewards l; episode_lengths := episode_lengths l;
     i_episode := i_episode l; trace := trace l |}.

Definition set_heap (h : Store) (l : Loop) : Loop :=
  {| world := world l; GLOBAL_STEP := GLOBAL_STEP l; cur_state := cur_state l;
     replay_memory := replay_memory l; heap := h; opt := opt l;
     episode_rewards := episode_rewards l; episode_lengths := episode_lengths l;
     i_episode := i_episode l; trace := trace l |}.

Definition set_opt (o : OptState) (l : Loop) : Loop :=
  {| world := world l; GLOBAL_STEP := GLOBAL_STEP l; cur_state := cur_state l;
     replay_memory := replay_memory l; heap := heap l; opt := o;
     episode_rewards := episode_rewards l; episode_lengths := episode_lengths l;
     i_episode := i_episode l; trace := trace l |}.

Definition set_stats (r : R) (n : Z) (l : Loop) : Loop :=
  {| world := world l; GLOBAL_STEP := GLOBAL_STEP l; cur_state := cur_state l;
     replay_memory := replay_memory l; heap := heap l; opt := opt l;
     episode_rewards := r; episode_lengths := n;
     i_episode := i_episode l; trace := trace l |}.

Definition set_i_episode (n : Z) (l : Loop) : Loop :=
  {| world := world l; GLOBAL_STEP := GLOBAL_STEP l; cur_state := cur_state l;
     replay_memory := replay_memory l; heap := heap l; opt := opt l;
     episode_rewards := episode_rewards l; episode_lengths := episode_lengths l;
     i_episode := n; trace := trace l |}.

Definition emit (e : Event) (l : Loop) : Loop :=
  {| world := world l; GLOBAL_STEP := GLOBAL_STEP l; cur_state := cur_state l;
     replay_memory := replay_memory l; heap := heap l; opt := opt l;
     episode_rewards := episode_rewards l; episode_lengths := episode_lengths l;
     i_episode := i_episode l; trace := e :: trace l |}.

(** Line 15. *)
Definition GLOBAL_STEP_init : Z := 0.

Variable setup : Setup.

(** Lines 62-64, 90-92 and 109-111: the environment is reset and the window
    is filled with its first frame. *)
Definition reset_state (l : Loop) : Loop :=
  let '(w, raw) := env_reset setup (world l) in
  set_state (stack4 (state_processor setup raw)) (set_world w l).

(** Lines 66-69 and 119-122: the policy chooses, the environment steps, the
    window slides; with the transition built on lines 88 and 154. *)
Definition interact (l : Loop) : result (Loop * (Transition Frame * bool)) :=
  let* ps := parameters (heap l) (q_network setup) in
  let* r := policy setup ps (world l) (cur_state l) (GLOBAL_STEP l) in
  let '(w1, (action, epsilon)) := r in
  let '(w2, (raw, reward, is_done)) := env_step setup w1 action in
  let next_state := slide (cur_state l) (state_processor setup raw) in
  let tr := {| state := cur_state l; action := action; reward := reward;
               next_state := next_state; done := float_of_bool is_done |} in
  Ok (emit (EvEnvStep action)
        (emit (EvPolicy (cur_state l) (GLOBAL_STEP l)) (set_world w2 l)),
      (tr, is_done)).

(** Lines 65-95: one round of the loop that fills the replay memory. *)
Definition populate_step (l : Loop) : result Loop :=
  let* r := interact l in
  let '(l1, (tr, is_done)) := r in
  let l2 := emit (EvAdd tr) (set_replay_memory (add tr (replay_memory l1)) l1) in
  let l3 := if is_done then reset_state l2 else set_state (next_state tr) l2 in
  Ok (set_GLOBAL_STEP (GLOBAL_STEP l3 + 1) l3).

Fixpoint populate (n : nat) (l : Loop) : result Loop :=
  match n with
  | O => Ok l
  | S n' => let* l' := populate_step l in populate n' l'
  end.

(** Lines 161-176: a batch is sampled, the targets are computed with the
    target network, the gradients are clipped and the optimizer steps on
    the parameters of [q_network]. *)
Definition update (l : Loop) : result Loop :=
  let '(w, draws) := sample_draws setup (world l) in
  let* batch := sample (replay_memory l) (batch_size (args setup)) draws in
  let* t_forward := forward (arch setup) (heap l) (t_network setup)
                      (map next_state batch) in
  let* t_values := td_target (discount_factor (args setup))
                     (map reward batch) (map done batch) t_forward in
  let* ps := parameters (heap l) (q_network setup) in
  let grads := Optim.clip_grad_norm (max_grad_norm (args setup))
                 (backward setup ps batch t_values) in
  let '(o, ps') := opt_step setup (opt l) ps grads in
  Ok (emit (EvUpdate batch)
        (set_opt o (set_heap (assign (q_network setup) ps' (heap l)) (set_world w l)))).

(** Lines 119-193: one round of the loop over [itertools.count()]; the
    boolean tells whether the round left the loop through [break]. *)
Definition body (t : Z) (l : Loop) : result (Loop * bool) :=
  let* r := interact l in
  let '(l1, (tr, is_done)) := r in
  let* h := sync_target (q_network setup) (t_network setup) (GLOBAL_STEP l1)
              (update_target_estimator_every (args setup)) (heap l1) in
  let l2 := set_heap h l1 in
  let l3 := emit (EvAdd tr) (set_replay_memory (add tr (replay_memory l2)) l2) in
  let l4 := set_stats (episode_rewards l3 + reward tr) t l3 in
  let* l5 := update l4 in
  if is_done then Ok (l5, true)
  else Ok (set_GLOBAL_STEP (GLOBAL_STEP l5 + 1) (set_state (next_state tr) l5),
           false).

(** Lines 102-115: the head of a round of [while True]. *)
Definition episode_start (l : Loop) : Loop := set_stats 0 0 (reset_state l).

(** Lines 195-206: the tail of a round of [while True], up to the [yield]. *)
Definition episode_end (l : Loop) : Loop :=
  emit (EvYield (GLOBAL_STEP l)) (set_i_episode (i_episode l + 1) l).

(** The two nested loops of lines 101-206, run for [fuel] rounds of the
    inner one; [t] is the counter of [itertools.count()]. *)
Fixpoint main_loop (fuel : nat) (t : Z) (l : Loop) : result Loop :=
  match fuel with
  | O => Ok l
  | S fuel' =>
      let* r := body t l in
      if snd r then main_loop fuel' 0 (episode_start (episode_end (fst r)))
      else main_loop fuel' (t + 1) (fst r)
  end.

(** The variables on entry to [work].  [GLOBAL_STEP] is a global of the
    module (lines 15 and 30) that [work] never resets: a call finds it at
    the value [g] that the calls before it left. *)
Definition initial_from (g : Z) (w : World) (h : Store) (o : OptState) : Loop :=
  {| world := w; GLOBAL_STEP := g; cur_state := [];
     replay_memory := new_buffer (replay_memory_size (args setup)); heap := h; opt := o;
     episode_rewards := 0; episode_lengths := 0; i_episode := 0; trace := [] |}.

(** A call of [work] that finds the global counter at [g], observed after
    [fuel] rounds of its inner loop. *)
Definition work_from (g : Z) (fuel : nat) (w : World) (h : Store)
    (o : OptState) : result Loop :=
  let* l := populate (replay_memory_init_size (args setup))
              (reset_state (initial_from g w h o)) in
  main_loop fuel 0 (episode_start l).

(** The first call of [work] after the module is loaded: the counter still
    has the value of line 15. *)
Definition initial (w : World) (h : Store) (o : OptState) : Loop :=
  initial_from GLOBAL_STEP_init w h o.

Definition work (fuel : nat) (w : World) (h : Store)
    (o : OptState) : result Loop :=
  work_from GLOBAL_STEP_init fuel w h o.

End Work.

End Train.

(** ** RL/DuelingDoubleDQN/main.py *)

Module Main.

Import Params.

(** Lines 169-170 of [run]: [q_network.reset_parameters()] leaves the values
    [init] in the parameters of [q_network], then the target network loads
    the state of [q_network]. *)
Definition run_setup (q_network t_network : Net) (init : list (list R))
    (h : Store) : result Store :=
  load_state_dict t_network (state_dict q_network) (assign q_network init h).

End Main.

(** ** What a run shows *)

Module Observe.

Import Train.

Section Trace.

Context {Frame : Type}.

Definition is_env_step (e : @Event Frame) : bool :=
  match e with EvEnvStep _ => true | _ => false end.

Definition is_yield (e : @Event Frame) : bool :=
  match e with EvYield _ => true | _ => false end.

Definition is_update (e : @Event Frame) : bool :=
  match e with EvUpdate _ => true | _ => false end.

Fixpoint count (p : @Event Frame -> bool) (tr : list (@Event Frame)) : nat :=
  match tr with
  | [] => 0
  | e :: tr' => if p e then S (count p tr') else count p tr'
  end.

(** The number of calls of [env.step], of episodes yielded and of optimizer
    steps. *)
Definition env_steps (tr : list (@Event Frame)) : nat := count is_env_step tr.
Definition yields (tr : list (@Event Frame)) : nat := count is_yield tr.
Definition updates (tr : list (@Event Frame)) : nat := count is_update tr.

(** A transition whose two states hold four frames each; an event whose
    states (given to the policy, stored in the buffer or sampled for the
    networks) all do. *)
Definition four_frames (tr : Transition Frame) : Prop :=
  length (state tr) = 4 /\ length (next_state tr) = 4.

Definition event_four_frames (e : @Event Frame) : Prop :=
  match e with
  | EvPolicy s _ => length s = 4
  | EvAdd tr => four_frames tr
  | EvUpdate batch => Forall four_frames batch
  | _ => True
  end.

End Trace.

Section OnLoop.

Context {Frame World OptState : Type}.

(** Everything stored or logged so far holds four frames per state. *)
Definition stored (l : @Loop Frame World OptState) : Prop :=
  Forall four_frames (items (replay_memory l)) /\
  Forall event_four_frames (trace l).

(** So does the current window. *)
Definition window_inv (l : @Loop Frame World OptState) : Prop :=
  length (cur_state l) = 4 /\ stored l.

(** The counter is the number of calls of [env.step] less the number of
    episodes yielded. *)
Definition counted (l : @Loop Frame World OptState) : Prop :=
  Z.of_nat (env_steps (trace l))
  = (GLOBAL_STEP l + Z.of_nat (yields (trace l)))%Z.

End OnLoop.

End Observe.

(** ** Small instances *)

Module Examples.

Import Train Params.
Local Open Scope R_scope.

(** A dueling network of three actions on states that are numbers. *)
Definition dueling_example : @DDDQN.DDDQN_Network nat := {|
  DDDQN.batch_size := 2;
  DDDQN.action_space := 3;
  DDDQN.value_stream := fun s => INR s;
  DDDQN.advantage_stream := fun s => [INR s; 1; 2]
|}.

(** A DQN network of two actions that prefers the second one. *)
Definition dqn_example : @DQN.DQN_Network nat := {|
  DQN.batch_size := 2;
  DQN.action_space := 2;
  DQN.q_fun := fun s => [0; INR (S s)]
|}.

Definition stub_args (init_size batch : nat) : Args := {|
  replay_memory_size := 8;
  replay_memory_init_size := init_size;
  update_target_estimator_every := 2;
  batch_size := batch;
  discount_factor := 1 / 2;
  max_grad_norm := 30
|}.

(** A stub environment whose frames are the ticks of a clock and whose
    episodes end where [ends] says; a policy that always picks action 0;
    networks of one parameter tensor each, whose output is that tensor; an
    optimizer with learning rate 0. *)
Definition stub (init_size batch : nat) (ends : nat -> bool)
  : @Setup nat nat nat unit := {|
  env_reset := fun w => (S w, w);
  env_step := fun w a => (S w, (w, 1, ends w));
  state_processor := fun raw => raw;
  arch := fun ps s => concat ps;
  policy := fun ps w s step => Ok (w, (0%nat, 0));
  sample_draws := fun w => (w, fun i => i);
  backward := fun ps batch ts => map (map (fun _ => 0)) ps;
  opt_step := fun o ps gs => (o, ps);
  args := stub_args init_size batch;
  q_network := [0%nat];
  t_network := [1%nat]
|}.


(** Episodes end on the ticks that leave 1 modulo 3. *)
Definition ends (w : nat) : bool := (w mod 3 =? 1)%nat.

(** The online parameter at location 0, the target parameter at
    location 1. *)
Definition stub_heap : Store := <[0%nat := [1]]> (<[1%nat := [5]]> ∅).

End Examples.

(** ** The loss of the dueling network *)

Module Loss.

Local Open Scope R_scope.

(** model_dd_dqn.py, [DDDQN_Network.compute_loss]: [self._loss] is
    [nn.MSELoss(reduction='none')], the squared difference entry by entry;
    the result is the pair of the weighted mean and the absolute errors. *)
Definition DDDQN_compute_loss (q_values q_target weights : list R)
  : result (R * list R) :=
  let* diff := Tensor.broadcast2 Rminus q_target q_values in
  let absolute_error := map Rabs diff in
  let* squared :=
    Tensor.broadcast2 (fun a b => (a - b) * (a - b)) q_target q_values in
  let* weighted := Tensor.mul weights squared in
  Ok (Tensor.mean weighted, absolute_error).

End Loss.

(** ** Episodes and the transitions of a run *)

Module Episode.

Import Train Params.
Local Open Scope R_scope.

Section Run.

Context {RawFrame Frame World OptState : Type}.
Variable setup : @Setup RawFrame Frame World OptState.

(** The inner loop of lines 118-193 on its own: rounds of [body] until one
    leaves through [break] (the boolean is then true) or [fuel] rounds
    have passed. *)
Fixpoint run_episode (fuel : nat) (t : Z) (l : @Loop Frame World OptState)
  : result (@Loop Frame World OptState * bool) :=
  match fuel with
  | O => Ok (l, false)
  | S fuel' =>
      let* r := body setup t l in
      if snd r then Ok (fst r, true)
      else run_episode fuel' (t + 1) (fst r)
  end.

End Run.

Section Added.

Context {Frame : Type}.

(** The transitions given to [replay_memory.add] so far, latest first. *)
Fixpoint added (tr : list (@Event Frame)) : list (Transition Frame) :=
  match tr with
  | [] => []
  | EvAdd x :: tr' => x :: added tr'
  | _ :: tr' => added tr'
  end.

(** A transition as the loop builds it: the done flag is [float] of a
    boolean and the next state is the state slid by one frame. *)
Definition well_built (x : Transition Frame) : Prop :=
  (done x = 0 \/ done x = 1) /\
  exists frame, next_state x = slide (state x) frame.

(** [later] was added right after [earlier]: it starts where [earlier]
    ended or on a window of four copies of one frame, and on such a window
    whenever [earlier] was terminal. *)
Definition follows (later earlier : Transition Frame) : Prop :=
  (state later = next_state earlier \/ exists frame, state later = stack4 frame) /\
  (done earlier = 1 -> exists frame, state later = stack4 frame).

Fixpoint chained (xs : list (Transition Frame)) : Prop :=
  match xs with
  | later :: (earlier :: _) as rest => follows later earlier /\ chained rest
  | _ => True
  end.

End Added.

Section OnLoop.

Context {Frame World OptState : Type}.

(** The current window continues the latest transition added. *)
Definition tail_ok (l : @Loop Frame World OptState) : Prop :=
  match added (trace l) with
  | [] => True
  | last :: _ =>
      (cur_state l = next_state last \/ exists f, cur_state l = stack4 f) /\
      (done last = 1 -> exists f, cur_state l = stack4 f)
  end.

Definition chain_inv (l : @Loop Frame World OptState) : Prop :=
  chained (added (trace l)) /\ Forall well_built (added (trace l)).

End OnLoop.

End Episode.

(** ** More small instances *)

Module MoreExamples.

Import Train Params Examples.
Local Open Scope R_scope.

(** [dueling_example] with every advantage raised by 3. *)
Definition dueling_shifted : @DDDQN.DDDQN_Network nat := {|
  DDDQN.batch_size := 2;
  DDDQN.action_space := 3;
  DDDQN.value_stream := fun s => INR s;
  DDDQN.advantage_stream := fun s => [INR s + 3; 1 + 3; 2 + 3]
|}.

Definition stub_args_every (every : Z) (init_size batch : nat) : Args := {|
  replay_memory_size := 8;
  replay_memory_init_size := init_size;
  update_target_estimator_every := every;
  batch_size := batch;
  discount_factor := 1 / 2;
  max_grad_norm := 30
|}.

(** The stub of [Examples.stub] with a chosen period of synchronisation and
    networks of two actions: the value of the first is the sum of the
    parameters, the value of the second is 0. *)
Definition stub_two_actions (every : Z) (init_size batch : nat)
    (ends : nat -> bool) : @Setup nat nat nat unit := {|
  env_reset := fun w => (S w, w);
  env_step := fun w a => (S w, (w, 1, ends w));
  state_processor := fun raw => raw;
  arch := fun ps s => [Tensor.sum (concat ps); 0];
  policy := fun ps w s step => Ok (w, (0%nat, 0));
  sample_draws := fun w => (w, fun i => i);
  backward := fun ps batch ts => map (map (fun _ => 0)) ps;
  opt_step := fun o ps gs => (o, ps);
  args := stub_args_every every init_size batch;
  q_network := [0%nat];
  t_network := [1%nat]
|}.

(** A stub whose networks read the state: of the two actions, the first
    has the parameter [p] as its value and the second [p] plus the newest
    frame of the window.  The policy always picks the first action, the
    loss is the mean of the squared differences [(t - p)^2] over the
    targets [t] of the batch, with gradient [2 * (p - mean t)] in [p], and
    the optimizer is RMSprop at learning rate 1/100. *)
Definition stub_frames (init_size batch : nat) (ends : nat -> bool)
  : @Setup nat nat nat (list (list R)) := {|
  env_reset := fun w => (S w, w);
  env_step := fun w a => (S w, (w, 1, ends w));
  state_processor := fun raw => raw;
  arch := fun ps s =>
    [Tensor.sum (concat ps); Tensor.sum (concat ps) + INR (List.last s 0%nat)];
  policy := fun ps w s step => Ok (w, (0%nat, 0));
  sample_draws := fun w => (w, fun i => i);
  backward := fun ps batch ts => map (map (fun p => 2 * (p - Tensor.mean ts))) ps;
  opt_step := Optim.RMSprop_step (1 / 100);
  args := stub_args init_size batch;
  q_network := [0%nat];
  t_network := [1%nat]
|}.

End MoreExamples.

(** * Properties *)

Import Examples.

(** ** Exceptions and tensors *)

Lemma rbind_Ok {A B} (m : result A) (k : A -> result B) b :
  rbind m k = Ok b -> exists a, m = Ok a /\ k a = Ok b.
Proof. destruct m as [a|e]; simpl; intros H; [eauto | discriminate]. Qed.

Lemma lookup_map {A B} (f : A -> B) (l : list A) (i : nat) :
  map f l !! i = f <$> (l !! i).
Proof. revert i; induction l as [|x l IH]; intros [|i]; simpl; auto. Qed.

Lemma broadcast2_same_length {A} (f : A -> A -> A) (xs ys : list A) :
  length xs = length ys -> Tensor.broadcast2 f xs ys = Ok (zip_with f xs ys).
Proof. intros H. unfold Tensor.broadcast2. rewrite decide_True; auto. Qed.

Lemma length_rsub_scalar c t : length (Tensor.rsub_scalar c t) = length t.
Proof. apply length_map. Qed.

Lemma length_mul_scalar c t : length (Tensor.mul_scalar c t) = length t.
Proof. apply length_map. Qed.

Section TensorFacts.

Local Open Scope R_scope.

Lemma max_value_spec (t : list R) :
  t <> [] ->
  exists m, Tensor.max_value t = Ok m /\ m ∈ t /\ forall x, x ∈ t -> x <= m.
Proof.
  induction t as [|x t IH]; [congruence|]. intros _.
  destruct t as [|y t].
  - exists x. simpl. split; [reflexivity|]. split; [left|].
    intros z Hz. apply list_elem_of_singleton in Hz. subst. lra.
  - destruct IH as (m & Hm & Hin & Hle); [congruence|].
    exists (Rmax x m). split.
    + change (Tensor.max_value (x :: y :: t))
        with (let* m := Tensor.max_value (y :: t) in Ok (Rmax x m)).
      rewrite Hm. reflexivity.
    + split.
      * unfold Rmax. destruct (Rle_dec x m); [right; exact Hin | left].
      * intros z Hz. apply elem_of_cons in Hz as [->|Hz].
        -- apply Rmax_l.
        -- etransitivity; [apply Hle, Hz | apply Rmax_r].
Qed.

Lemma max_dim1_spec (t : list (list R)) :
  Forall (fun row => row <> []) t ->
  exists ms, Tensor.max_dim1 t = Ok ms /\ length ms = length t /\
    forall i row, t !! i = Some row ->
      exists m, Tensor.max_value row = Ok m /\ ms !! i = Some m.
Proof.
  induction 1 as [|row t Hrow _ IH].
  - exists []. simpl. repeat split; auto. intros i row Hi. discriminate.
  - destruct IH as (ms & Hms & Hlen & Hlk).
    destruct (max_value_spec row Hrow) as (m & Hm & _).
    exists (m :: ms). simpl. rewrite Hm, Hms. simpl.
    repeat split; [congruence|].
    intros [|i] r Hi; simpl in *.
    + injection Hi as <-. eauto.
    + eauto.
Qed.

End TensorFacts.

(** ** The TD target *)

Section TDTarget.

Local Open Scope R_scope.
Import Train.

(** Lines 167-168 on tensors of matching sizes whose rows are not empty:
    entry [i] of the result is
    [reward[i] + discount_factor * (1 - done[i]) * max_a t_forward[i][a]]. *)
Lemma td_target_rows (discount_factor : R) (reward_batch done_batch : list R)
    (t_forward : list (list R)) :
  length done_batch = length reward_batch ->
  length t_forward = length reward_batch ->
  Forall (fun row => row <> []) t_forward ->
  exists t_values,
    td_target discount_factor reward_batch done_batch t_forward = Ok t_values /\
    length t_values = length reward_batch /\
    forall i r d row,
      reward_batch !! i = Some r -> done_batch !! i = Some d ->
      t_forward !! i = Some row ->
      exists m,
        Tensor.max_value row = Ok m /\ m ∈ row /\ (forall x, x ∈ row -> x <= m) /\
        t_values !! i = Some (r + discount_factor * (1 - d) * m) /\
        (d = float_of_bool true -> t_values !! i = Some r).
Proof.
  intros Hd Ht Hrows.
  destruct (max_dim1_spec t_forward Hrows) as (ms & Hms & Hlen & Hlk).
  unfold td_target. rewrite Hms. simpl.
  unfold Tensor.mul, Tensor.add.
  rewrite broadcast2_same_length
    by (rewrite length_rsub_scalar; congruence).
  simpl.
  rewrite broadcast2_same_length
    by (rewrite length_mul_scalar, length_zip_with, length_rsub_scalar; lia).
  eexists. split; [reflexivity|]. split.
  { rewrite length_zip_with, length_mul_scalar, length_zip_with,
      length_rsub_scalar. lia. }
  intros i r d row Hr Hdn Hrow.
  destruct (Hlk i row Hrow) as (m & Hm & Hmi).
  destruct (max_value_spec row) as (m' & Hm' & Hin & Hle).
  { eapply Forall_lookup_1 in Hrows; eauto. }
  assert (m' = m) as -> by congruence.
  exists m. split; [exact Hm|]. split; [exact Hin|]. split; [exact Hle|].
  assert (Hval : zip_with Rplus reward_batch
            (Tensor.mul_scalar discount_factor
               (zip_with Rmult (Tensor.rsub_scalar 1 done_batch) ms)) !! i
          = Some (r + discount_factor * ((1 - d) * m))).
  { rewrite lookup_zip_with. rewrite Hr. simpl.
    unfold Tensor.mul_scalar, Tensor.rsub_scalar.
    rewrite lookup_map, lookup_zip_with, lookup_map, Hdn. simpl.
    rewrite Hmi. reflexivity. }
  split.
  - rewrite Hval. f_equal. ring.
  - intros ->. rewrite Hval. f_equal. simpl. ring.
Qed.

Lemma max_dim1_rows (t : list (list R)) (ms : list R) :
  Tensor.max_dim1 t = Ok ms -> Forall (fun row => row <> []) t.
Proof.
  revert ms. induction t as [|row t IH]; intros ms H; [constructor|].
  simpl in H. apply rbind_Ok in H as (m & Hm & H).
  apply rbind_Ok in H as (ms' & Hms & _).
  constructor; [|eauto].
  intros ->. discriminate.
Qed.

End TDTarget.

(** ** Sums and the position of the maximum *)

Section SumFacts.

Local Open Scope R_scope.

Lemma sum_replicate (n : nat) (c : R) : Tensor.sum (replicate n c) = INR n * c.
Proof.
  induction n as [|n IH].
  - simpl. ring.
  - rewrite S_INR. simpl. fold (Tensor.sum (replicate n c)). rewrite IH. ring.
Qed.

Lemma sum_insert (t : list R) (i : nat) (a b : R) :
  t !! i = Some a -> Tensor.sum (<[i := b]> t) = Tensor.sum t - a + b.
Proof.
  revert i. induction t as [|x t IH]; intros [|i] H; simpl in *; try discriminate.
  - injection H as ->. unfold Tensor.sum. simpl. ring.
  - change (x + Tensor.sum (<[i := b]> t) = x + Tensor.sum t - a + b).
    rewrite (IH i H). ring.
Qed.

(** The sum of a row weighted by a one-hot row is the entry at the hot
    position. *)
Lemma sum_mul_one_hot_from (q : list R) (k a : nat) :
  Tensor.sum (zip_with Rmult q
                (map (fun j => if decide (j = a) then 1 else 0) (seq k (length q))))
  = if decide (k <= a)%nat then default 0 (q !! (a - k)%nat) else 0.
Proof.
  revert k. induction q as [|x q IH]; intros k.
  - simpl. destruct (decide (k <= a)%nat); reflexivity.
  - cbn [length seq map zip_with]. unfold Tensor.sum. cbn [fold_right].
    fold (Tensor.sum (zip_with Rmult q
            (map (fun j => if decide (j = a) then 1 else 0) (seq (S k) (length q))))).
    rewrite IH.
    destruct (decide (k = a)) as [->|Hne].
    + rewrite decide_False by lia. rewrite decide_True by lia.
      replace (a - a)%nat with 0%nat by lia. simpl. ring.
    + destruct (decide (S k <= a)%nat) as [Hle|Hgt].
      * rewrite decide_True by lia.
        replace (a - k)%nat with (S (a - S k)) by lia. simpl. ring.
      * rewrite decide_False by lia. ring.
Qed.

Lemma argmax_from_spec (t : list R) (i best : nat) (bv : R) :
  (best < i)%nat ->
  let r := Tensor.argmax_from i best bv t in
  (r = best /\ forall x, x ∈ t -> x <= bv) \/
  (exists j m, r = (i + j)%nat /\ t !! j = Some m /\ bv < m /\
               forall x, x ∈ t -> x <= m).
Proof.
  revert i best bv. induction t as [|x t IH]; intros i best bv Hlt; simpl.
  - left. split; [reflexivity|]. intros x Hx. inversion Hx.
  - destruct (Rlt_dec bv x) as [Hbx|Hbx].
    + right. destruct (IH (S i) i x) as [[Hr Hall]|(j & m & Hr & Hj & Hm & Hall)];
        [lia| |].
      * exists 0%nat, x. rewrite Hr. split; [lia|]. split; [reflexivity|].
        split; [exact Hbx|]. intros y Hy.
        apply elem_of_cons in Hy as [->|Hy]; [lra | auto].
      * exists (S j), m. rewrite Hr. split; [lia|]. split; [exact Hj|].
        split; [lra|]. intros y Hy.
        apply elem_of_cons in Hy as [->|Hy]; [lra | auto].
    + destruct (IH (S i) best bv) as [[Hr Hall]|(j & m & Hr & Hj & Hm & Hall)];
        [lia| |].
      * left. split; [exact Hr|]. intros y Hy.
        apply elem_of_cons in Hy as [->|Hy]; [lra | auto].
      * right. exists (S j), m. rewrite Hr. split; [lia|]. split; [exact Hj|].
        split; [exact Hm|]. intros y Hy.
        apply elem_of_cons in Hy as [->|Hy]; [lra | auto].
Qed.

Lemma argmax_spec (t : list R) :
  t <> [] ->
  exists i m, Tensor.argmax t = Ok i /\ t !! i = Some m /\
              forall x, x ∈ t -> x <= m.
Proof.
  destruct t as [|x t]; [congruence|]. intros _. simpl.
  destruct (argmax_from_spec t 1 0 x) as [[Hr Hall]|(j & m & Hr & Hj & Hm & Hall)];
    [lia| |].
  - exists 0%nat, x. rewrite Hr. split; [reflexivity|]. split; [reflexivity|].
    intros y Hy. apply elem_of_cons in Hy as [->|Hy]; [lra | auto].
  - exists (S j), m. rewrite Hr. split; [reflexivity|]. split; [exact Hj|].
    intros y Hy. apply elem_of_cons in Hy as [->|Hy]; [lra | auto].
Qed.

End SumFacts.

(** ** The dueling network *)

Section Dueling.

Local Open Scope R_scope.
Import DDDQN.

Context {State : Type}.

Lemma forward_row (network : @DDDQN_Network State) (X : list State)
    (i : nat) (s : State) :
  X !! i = Some s ->
  forward network X !! i =
    Some (combine (value_stream network s) (advantage_stream network s)).
Proof.
  intros H. unfold forward, value, advantage.
  rewrite lookup_zip_with, !lookup_map, H. reflexivity.
Qed.

(** C3.  On every state [s] of a batch, the row of Q-values returned by
    [forward] holds [V(s) + (A(s,a) - mean_a A(s,a))] at every action [a],
    where [V] is the output of the value head and [A] that of the
    advantage head; so for two actions the difference of the Q-values is
    the difference of the advantages. *)
Theorem dueling_decomposition (network : @DDDQN_Network State)
    (X : list State) (i : nat) (s : State) :
  X !! i = Some s ->
  exists q,
    forward network X !! i = Some q /\
    length q = length (advantage_stream network s) /\
    (forall a A, advantage_stream network s !! a = Some A ->
       q !! a = Some (value_stream network s +
                      (A - Tensor.mean (advantage_stream network s)))) /\
    (forall a1 a2 A1 A2,
       advantage_stream network s !! a1 = Some A1 ->
       advantage_stream network s !! a2 = Some A2 ->
       exists Q1 Q2, q !! a1 = Some Q1 /\ q !! a2 = Some Q2 /\
                     Q1 - Q2 = A1 - A2).
Proof.
  intros H. eexists. split; [apply forward_row, H|].
  unfold combine. split; [apply length_map|]. split.
  - intros a A Ha. rewrite lookup_map, Ha. reflexivity.
  - intros a1 a2 A1 A2 H1 H2. do 2 eexists.
    rewrite !lookup_map, H1, H2. simpl.
    split; [reflexivity|]. split; [reflexivity|]. ring.
Qed.

End Dueling.

Lemma dueling_decomposition_witness :
  exists q,
    DDDQN.forward dueling_example [5%nat; 7%nat] !! 1%nat = Some q /\
    length q = length (DDDQN.advantage_stream dueling_example 7%nat) /\
    (forall a A, DDDQN.advantage_stream dueling_example 7%nat !! a = Some A ->
       q !! a = Some (DDDQN.value_stream dueling_example 7%nat +
                      (A - Tensor.mean
                             (DDDQN.advantage_stream dueling_example 7%nat)))%R) /\
    (forall a1 a2 A1 A2,
       DDDQN.advantage_stream dueling_example 7%nat !! a1 = Some A1 ->
       DDDQN.advantage_stream dueling_example 7%nat !! a2 = Some A2 ->
       exists Q1 Q2, q !! a1 = Some Q1 /\ q !! a2 = Some Q2 /\
                     (Q1 - Q2 = A1 - A2)%R).
Proof.
  apply (dueling_decomposition dueling_example [5%nat; 7%nat] 1%nat 7%nat).
  reflexivity.
Defined.

(** ** The policy of the DQN variant *)

Section DQNPolicy.

Local Open Scope R_scope.
Import DQN.

Context {State : Type}.

(** C10.  For a network with at least one action whose output row has one
    entry per action, [policy_fn] returns for every observation and every
    epsilon a vector with one entry per action: [epsilon / action_space]
    everywhere, and [1 - epsilon] more at the action of the largest
    Q-value; its entries add up to 1. *)
Theorem policy_fn_distribution (network : @DQN_Network State)
    (observation : State) (epsilon : R) :
  (0 < action_space network)%nat ->
  length (q_fun network observation) = action_space network ->
  exists A best,
    policy_fn network observation epsilon = Ok A /\
    Tensor.argmax (q_fun network observation) = Ok best /\
    (best < action_space network)%nat /\
    length A = action_space network /\
    Tensor.sum A = 1 /\
    A !! best = Some (epsilon / INR (action_space network) + (1 - epsilon)) /\
    forall a, (a < action_space network)%nat -> a <> best ->
      A !! a = Some (epsilon / INR (action_space network)).
Proof.
  intros Hpos Hlen.
  set (n := action_space network) in *.
  assert (Hne : q_fun network observation <> []).
  { intros Hnil. rewrite Hnil in Hlen. simpl in Hlen. lia. }
  destruct (argmax_spec _ Hne) as (best & m & Hbest & Hm & _).
  assert (Hb : (best < n)%nat).
  { rewrite <- Hlen. eapply lookup_lt_Some, Hm. }
  assert (HA : replicate n (1 * epsilon / INR n) !! best = Some (1 * epsilon / INR n)).
  { apply lookup_replicate_2, Hb. }
  assert (Hn0 : INR n <> 0). { apply not_0_INR. lia. }
  exists (<[best := 1 * epsilon / INR n + (1 - epsilon)]>
            (replicate n (1 * epsilon / INR n))), best.
  split.
  { unfold policy_fn, forward. simpl. rewrite Hbest. simpl.
    fold n. rewrite HA. reflexivity. }
  split; [exact Hbest|]. split; [exact Hb|].
  split; [rewrite length_insert; apply length_replicate|].
  split.
  { rewrite (sum_insert _ _ _ _ HA), sum_replicate. field. exact Hn0. }
  split.
  - rewrite list_lookup_insert_eq by (rewrite length_replicate; exact Hb).
    f_equal. unfold Rdiv. ring.
  - intros a Ha Hab. rewrite list_lookup_insert_ne by congruence.
    rewrite lookup_replicate_2 by exact Ha. f_equal. unfold Rdiv. ring.
Qed.

End DQNPolicy.

Lemma policy_fn_distribution_witness :
  exists A best,
    DQN.policy_fn dqn_example 3%nat (1 / 10)%R = Ok A /\
    Tensor.argmax (DQN.q_fun dqn_example 3%nat) = Ok best /\
    (best < DQN.action_space dqn_example)%nat /\
    length A = DQN.action_space dqn_example /\
    Tensor.sum A = 1%R /\
    A !! best = Some (1 / 10 / INR (DQN.action_space dqn_example) + (1 - 1 / 10))%R /\
    forall a, (a < DQN.action_space dqn_example)%nat -> a <> best ->
      A !! a = Some (1 / 10 / INR (DQN.action_space dqn_example))%R.
Proof.
  apply (policy_fn_distribution dqn_example 3%nat (1 / 10)%R).
  - simpl. lia.
  - reflexivity.
Defined.

(** ** Selecting the value of the chosen action *)

Section Gather.

Local Open Scope R_scope.

Lemma concat_lookup_uniform {A} (p : list (list A)) (n i a : nat) (row : list A) :
  Forall (fun r => length r = n) p ->
  p !! i = Some row -> (a < n)%nat ->
  concat p !! (i * n + a)%nat = row !! a.
Proof.
  intros Hall. revert i. induction Hall as [|r p Hr _ IH]; intros i Hi Ha.
  - discriminate.
  - destruct i as [|i]; simpl in *.
    + injection Hi as ->. apply lookup_app_l. lia.
    + rewrite lookup_app_r by lia.
      replace (n + i * n + a - length r)%nat with (i * n + a)%nat by lia.
      apply IH; assumption.
Qed.

Lemma index_nat {A} (t : list A) (j : nat) (x : A) :
  t !! j = Some x -> DQN.index t (Z.of_nat j) = Ok x.
Proof.
  intros H. pose proof (lookup_lt_Some _ _ _ H) as Hlt.
  unfold DQN.index.
  replace (Z.of_nat j <? 0)%Z with false by (symmetry; apply Z.ltb_ge; lia).
  replace (0 <=? Z.of_nat j)%Z with true by (symmetry; apply Z.leb_le; lia).
  replace (Z.of_nat j <? Z.of_nat (length t))%Z with true
    by (symmetry; apply Z.ltb_lt; lia).
  simpl. rewrite Nat2Z.id, H. reflexivity.
Qed.

Lemma gather_spec {A} (t : list A) (idx : list Z) :
  (forall i z, idx !! i = Some z -> exists x, DQN.index t z = Ok x) ->
  exists out, DQN.gather t idx = Ok out /\ length out = length idx /\
    forall i z, idx !! i = Some z ->
      exists x, DQN.index t z = Ok x /\ out !! i = Some x.
Proof.
  induction idx as [|z idx IH]; intros H.
  - exists []. simpl. repeat split; auto. intros i z Hi. discriminate.
  - destruct (H 0%nat z eq_refl) as (x & Hx).
    destruct IH as (out & Hout & Hlen & Hlk).
    { intros i z' Hi. apply (H (S i) z' Hi). }
    exists (x :: out). simpl. rewrite Hx, Hout. simpl.
    repeat split; [congruence|].
    intros [|i] z' Hi; simpl in *.
    + injection Hi as <-. eauto.
    + eauto.
Qed.

Context {State : Type}.

(** C6, the code against the claim.  In the DQN variant
    [compute_action_pred] raises NameError on every input: its first
    statement reads [i_type], a name that model_dqn.py neither defines nor
    imports, so no value of any action is ever returned.  What the lines
    after it are written to compute is the gather of the claim: once the
    name is bound, and on cached predictions of [batch_size] rows of
    [action_space] entries with integer action ids, the flattened index
    [i * action_space + action[i]] reads [prediction[i, action[i]]].  In
    the dueling variant the actions are one-hot rows, and the row-wise
    product and sum with the Q-values yields [q_values[i, action[i]]]. *)
Theorem select_action_value_gather
    (dqn : @DQN.DQN_Network State) (prediction : list (list R)) (actions : list Z)
    (dddqn : @DDDQN.DDDQN_Network State) (X : list State) (chosen : list nat) :
  length prediction = DQN.batch_size dqn ->
  Forall (fun row => length row = DQN.action_space dqn) prediction ->
  length actions = DQN.batch_size dqn ->
  Forall (fun a => (0 <= a < Z.of_nat (DQN.action_space dqn))%Z) actions ->
  length chosen = length X ->
  Forall (fun s => length (DDDQN.advantage_stream dddqn s)
                   = DDDQN.action_space dddqn) X ->
  Forall (fun a => (a < DDDQN.action_space dddqn)%nat) chosen ->
  (forall p a, DQN.compute_action_pred dqn p a = Raise NameError) /\
  (exists out,
     DQN.flat_gather dqn prediction actions = Ok out /\
     length out = DQN.batch_size dqn /\
     forall i row a, prediction !! i = Some row -> actions !! i = Some a ->
       exists v, row !! Z.to_nat a = Some v /\ out !! i = Some v) /\
  (let out := DDDQN.compute_q_value dddqn X
                (map (DDDQN.one_hot (DDDQN.action_space dddqn)) chosen) in
   length out = length X /\
   forall i q a, DDDQN.forward dddqn X !! i = Some q -> chosen !! i = Some a ->
     exists v, q !! a = Some v /\ out !! i = Some v).
Proof.
  intros Hp Hrows Ha Hrange Hc Hadv Hlegal.
  split; [intros p a; reflexivity|]. split.
  - unfold DQN.flat_gather, Tensor.add_long.
    set (n := DQN.action_space dqn) in *. set (B := DQN.batch_size dqn) in *.
    rewrite broadcast2_same_length by (rewrite length_map, length_seq; lia).
    simpl.
    assert (Hidx : forall i z,
      zip_with Z.add (map (fun i => (Z.of_nat i * Z.of_nat n)%Z) (seq 0 B)) actions
        !! i = Some z ->
      exists row a, prediction !! i = Some row /\ actions !! i = Some a /\
        z = Z.of_nat (i * n + Z.to_nat a) /\ (Z.to_nat a < n)%nat).
    { intros i z Hz. rewrite lookup_zip_with, lookup_map in Hz.
      destruct (seq 0 B !! i) as [k|] eqn:Hk; [|discriminate]. simpl in Hz.
      destruct (actions !! i) as [a|] eqn:Hai; [|discriminate]. simpl in Hz.
      injection Hz as <-.
      apply lookup_seq in Hk as [-> HiB]. simpl.
      destruct (lookup_lt_is_Some_2 prediction i) as [row Hrow]; [lia|].
      pose proof (Forall_lookup_1 _ _ _ _ Hrange Hai) as Hra. simpl in Hra.
      exists row, a. repeat split; auto; lia. }
    destruct (gather_spec (concat prediction)
      (zip_with Z.add (map (fun i => (Z.of_nat i * Z.of_nat n)%Z) (seq 0 B)) actions))
      as (out & Hout & Hlen & Hlk).
    { intros i z Hz. destruct (Hidx i z Hz) as (row & a & Hrow & Hai & -> & Hlt).
      destruct (lookup_lt_is_Some_2 row (Z.to_nat a)) as [v Hv].
      { rewrite (Forall_lookup_1 _ _ _ _ Hrows Hrow). exact Hlt. }
      exists v. apply index_nat.
      rewrite (concat_lookup_uniform prediction n i _ row Hrows Hrow Hlt).
      exact Hv. }
    exists out. split; [exact Hout|]. split.
    { rewrite Hlen, length_zip_with, length_map, length_seq. lia. }
    intros i row a Hrow Hai.
    assert (Hz : zip_with Z.add
              (map (fun i => (Z.of_nat i * Z.of_nat n)%Z) (seq 0 B)) actions !! i
            = Some (Z.of_nat i * Z.of_nat n + a)%Z).
    { rewrite lookup_zip_with, lookup_map.
      rewrite lookup_seq_lt by (rewrite <- Hp; eapply lookup_lt_Some, Hrow).
      simpl. rewrite Hai. reflexivity. }
    destruct (Hlk _ _ Hz) as (x & Hx & Hoi).
    destruct (Hidx _ _ Hz) as (row' & a' & Hrow' & Hai' & Heq & Hlt).
    assert (row' = row) as -> by congruence.
    assert (a' = a) as -> by congruence.
    rewrite Heq in Hx.
    destruct (lookup_lt_is_Some_2 row (Z.to_nat a)) as [v Hv].
    { rewrite (Forall_lookup_1 _ _ _ _ Hrows Hrow). exact Hlt. }
    exists v. split; [exact Hv|].
    rewrite (index_nat (concat prediction) _ v) in Hx.
    + congruence.
    + rewrite (concat_lookup_uniform prediction n i _ row Hrows Hrow Hlt).
      exact Hv.
  - cbv zeta. unfold DDDQN.compute_q_value, DDDQN.mul_sum_dim1. split.
    { rewrite length_zip_with, length_map.
      unfold DDDQN.forward, DDDQN.value, DDDQN.advantage.
      rewrite length_zip_with, !length_map. lia. }
    intros i q a Hq Hai.
    assert (Hs : exists s, X !! i = Some s).
    { apply lookup_lt_is_Some_2. rewrite <- Hc. eapply lookup_lt_Some, Hai. }
    destruct Hs as [s Hs].
    rewrite (forward_row dddqn X i s Hs) in Hq. injection Hq as <-.
    pose proof (Forall_lookup_1 _ _ _ _ Hadv Hs) as Hlen. simpl in Hlen.
    pose proof (Forall_lookup_1 _ _ _ _ Hlegal Hai) as Hlt. simpl in Hlt.
    set (q := DDDQN.combine (DDDQN.value_stream dddqn s)
                (DDDQN.advantage_stream dddqn s)).
    assert (Hql : length q = DDDQN.action_space dddqn).
    { unfold q, DDDQN.combine. rewrite length_map. exact Hlen. }
    destruct (lookup_lt_is_Some_2 q a) as [v Hv]; [lia|].
    exists v. split; [exact Hv|].
    rewrite lookup_zip_with, (forward_row dddqn X i s Hs), lookup_map, Hai.
    simpl. fold q. unfold DDDQN.one_hot. rewrite <- Hql.
    rewrite sum_mul_one_hot_from. rewrite decide_True by lia.
    rewrite Nat.sub_0_r, Hv. reflexivity.
Qed.

End Gather.

Lemma select_action_value_gather_witness :
  (forall p a, DQN.compute_action_pred dqn_example p a = Raise NameError) /\
  (exists out,
     DQN.flat_gather dqn_example [[1; 2]; [3; 4]]%R [1; 0]%Z = Ok out /\
     length out = DQN.batch_size dqn_example /\
     forall i row a, [[1; 2]; [3; 4]]%R !! i = Some row -> [1; 0]%Z !! i = Some a ->
       exists v, row !! Z.to_nat a = Some v /\ out !! i = Some v) /\
  (let out := DDDQN.compute_q_value dueling_example [5; 7]%nat
                (map (DDDQN.one_hot (DDDQN.action_space dueling_example)) [2; 0]%nat) in
   length out = length [5; 7]%nat /\
   forall i q a, DDDQN.forward dueling_example [5; 7]%nat !! i = Some q ->
     [2; 0]%nat !! i = Some a ->
     exists v, q !! a = Some v /\ out !! i = Some v).
Proof.
  apply (select_action_value_gather dqn_example [[1; 2]; [3; 4]]%R [1; 0]%Z
           dueling_example [5; 7]%nat [2; 0]%nat).
  - reflexivity.
  - repeat constructor.
  - reflexivity.
  - repeat constructor; simpl; lia.
  - reflexivity.
  - repeat constructor.
  - repeat constructor; simpl; lia.
Defined.

(** ** The epsilon-greedy policy of the dueling variant *)

Section Epsilon.

Local Open Scope R_scope.
Import DDDQN.

Lemma exp_le_mono (x y : R) : x <= y -> exp x <= exp y.
Proof.
  intros [Hlt | ->]; [left; apply exp_increasing, Hlt | right; reflexivity].
Qed.

Lemma eps_threshold_formula (eps_end eps_start eps_decay : R) (s : Z) :
  eps_threshold eps_end eps_start eps_decay s
  = eps_end + (eps_start - eps_end) * exp (- eps_decay * IZR s).
Proof. unfold eps_threshold. do 3 f_equal. ring. Qed.

Lemma eps_threshold_antitone (eps_end eps_start eps_decay : R) (s s' : Z) :
  eps_end <= eps_start -> 0 <= eps_decay -> (s <= s')%Z ->
  eps_threshold eps_end eps_start eps_decay s'
  <= eps_threshold eps_end eps_start eps_decay s.
Proof.
  intros He Hd Hs. rewrite !eps_threshold_formula.
  apply IZR_le in Hs.
  assert (exp (- eps_decay * IZR s') <= exp (- eps_decay * IZR s))
    by (apply exp_le_mono; nra).
  nra.
Qed.

Lemma eps_threshold_0 (eps_end eps_start eps_decay : R) :
  eps_threshold eps_end eps_start eps_decay 0 = eps_start.
Proof.
  rewrite eps_threshold_formula. rewrite Rmult_0_r, exp_0. ring.
Qed.

Context {State Act : Type}.

Lemma forward_single (network : @DDDQN_Network State) (observation : State) :
  forward network [observation]
  = [combine (value_stream network observation)
             (advantage_stream network observation)].
Proof. reflexivity. Qed.

(** C4.  With [eps_end <= eps_start] and a decay rate that is not negative,
    the policy called at step [s >= 0] uses and returns the threshold
    [eps_end + (eps_start - eps_end) * exp (- eps_decay * s)]: the greedy
    branch is taken exactly when the random sample exceeds it.  The
    threshold does not increase with the step, it is [eps_start] at step 0
    and it stays between [eps_end] and [eps_start]. *)
Theorem epsilon_schedule (network : @DDDQN_Network State)
    (eps_end eps_start eps_decay : R) (actions : list Act)
    (observation : State) :
  eps_end <= eps_start ->
  0 <= eps_decay ->
  actions <> [] ->
  advantage_stream network observation <> [] ->
  let epsilon s := eps_end + (eps_start - eps_end) * exp (- eps_decay * IZR s) in
  (forall s sample draw, (0 <= s)%Z ->
     exists a,
       policy_fn network eps_end eps_start eps_decay actions sample draw
         observation s = Ok (a, epsilon s) /\
       (sample <= epsilon s -> randint (length actions) draw = Ok a) /\
       (sample > epsilon s ->
          Tensor.argmax (combine (value_stream network observation)
                           (advantage_stream network observation)) = Ok a)) /\
  (forall s s', (0 <= s)%Z -> (s <= s')%Z -> epsilon s' <= epsilon s) /\
  epsilon 0%Z = eps_start /\
  (forall s, (0 <= s)%Z -> eps_end <= epsilon s <= eps_start).
Proof.
  intros He Hd Hact Hadv epsilon.
  assert (Hform : forall s, eps_threshold eps_end eps_start eps_decay s = epsilon s)
    by (intros s; apply eps_threshold_formula).
  split; [|split; [|split]].
  - intros s sample draw Hs.
    unfold policy_fn. rewrite Hform.
    destruct (Rgt_dec sample (epsilon s)) as [Hgt | Hle].
    + rewrite forward_single.
      destruct (argmax_spec (combine (value_stream network observation)
                               (advantage_stream network observation)))
        as (a & m & Ha & _).
      { unfold combine. destruct (advantage_stream network observation);
          [congruence | discriminate]. }
      exists a. rewrite Ha. simpl. split; [reflexivity|].
      split; [intros; lra | intros _; reflexivity].
    + unfold randint. rewrite decide_False
        by (destruct actions; [congruence | simpl; lia]).
      eexists. simpl. split; [reflexivity|].
      split; [intros _; reflexivity | intros; lra].
  - intros s s' _ Hss. rewrite <- !Hform.
    apply eps_threshold_antitone; assumption.
  - rewrite <- Hform. apply eps_threshold_0.
  - intros s Hs. split.
    + pose proof (exp_pos (- eps_decay * IZR s)). unfold epsilon. nra.
    + rewrite <- (eps_threshold_0 eps_end eps_start eps_decay), <- Hform.
      apply eps_threshold_antitone; assumption.
Qed.

(** C5.  With a legal action set that is not empty and a network that has
    one output per legal action, the policy draws one sample; when the
    sample is at most the threshold of the step it returns the result of
    the uniform draw over [0, len(actions)), so that every legal action is
    returned for the draw that picks it, and otherwise it returns the
    position of the largest predicted value of the current state; either
    way the action is a legal one. *)
Theorem epsilon_greedy_action (network : @DDDQN_Network State)
    (eps_end eps_start eps_decay : R) (actions : list Act)
    (sample : R) (draw : nat) (observation : State) (steps_done : Z) :
  actions <> [] ->
  length (advantage_stream network observation) = length actions ->
  let epsilon := eps_threshold eps_end eps_start eps_decay steps_done in
  exists a,
    policy_fn network eps_end eps_start eps_decay actions sample draw
      observation steps_done = Ok (a, epsilon) /\
    (a < length actions)%nat /\
    (sample <= epsilon ->
       randint (length actions) draw = Ok a /\
       a = (draw mod length actions)%nat /\
       forall k, (k < length actions)%nat ->
         policy_fn network eps_end eps_start eps_decay actions sample k
           observation steps_done = Ok (k, epsilon)) /\
    (~ sample <= epsilon ->
       exists q_values m,
         forward network [observation] = [q_values] /\
         Tensor.argmax q_values = Ok a /\
         q_values !! a = Some m /\
         forall x, x ∈ q_values -> x <= m).
Proof.
  intros Hact Hlen epsilon.
  assert (Hn : length actions <> 0%nat)
    by (destruct actions; [congruence | simpl; lia]).
  unfold policy_fn. fold epsilon.
  destruct (Rgt_dec sample epsilon) as [Hgt | Hle].
  - rewrite forward_single.
    set (q := combine (value_stream network observation)
                (advantage_stream network observation)).
    assert (Hq : length q = length actions)
      by (unfold q, combine; rewrite length_map; exact Hlen).
    destruct (argmax_spec q) as (a & m & Ha & Hm & Hmax).
    { intros Hnil. rewrite Hnil in Hq. simpl in Hq. lia. }
    exists a. rewrite Ha. simpl. split; [reflexivity|].
    split; [rewrite <- Hq; eapply lookup_lt_Some, Hm|].
    split; [intros; lra|].
    intros _. exists q, m. auto.
  - unfold randint.
    destruct (decide (length actions = 0%nat)) as [H0 | _]; [contradiction|].
    simpl.
    exists (draw mod length actions)%nat. split; [reflexivity|].
    split; [apply Nat.mod_upper_bound, Hn|].
    split; [|intros; lra].
    intros _. split; [reflexivity|]. split; [reflexivity|].
    intros k Hk. rewrite Nat.mod_small by exact Hk. reflexivity.
Qed.

End Epsilon.

Lemma epsilon_schedule_witness :
  let epsilon s := (5 / 100 + (9 / 10 - 5 / 100) * exp (- (1 / 200) * IZR s))%R in
  (forall s sample draw, (0 <= s)%Z ->
     exists a,
       DDDQN.policy_fn dueling_example (5 / 100) (9 / 10) (1 / 200) [0; 1; 2]%nat
         sample draw 7%nat s = Ok (a, epsilon s) /\
       (sample <= epsilon s -> DDDQN.randint (length [0; 1; 2]%nat) draw = Ok a)%R /\
       (sample > epsilon s ->
          Tensor.argmax (DDDQN.combine (DDDQN.value_stream dueling_example 7%nat)
                           (DDDQN.advantage_stream dueling_example 7%nat)) = Ok a)%R) /\
  (forall s s', (0 <= s)%Z -> (s <= s')%Z -> epsilon s' <= epsilon s)%R /\
  epsilon 0%Z = (9 / 10)%R /\
  (forall s, (0 <= s)%Z -> 5 / 100 <= epsilon s <= 9 / 10)%R.
Proof.
  apply (epsilon_schedule dueling_example (5 / 100) (9 / 10) (1 / 200)
           [0; 1; 2]%nat 7%nat).
  - lra.
  - lra.
  - discriminate.
  - discriminate.
Defined.

Lemma epsilon_greedy_action_witness :
  let epsilon := DDDQN.eps_threshold (5 / 100) (9 / 10) (1 / 200) 0 in
  exists a,
    DDDQN.policy_fn dueling_example (5 / 100) (9 / 10) (1 / 200) [0; 1; 2]%nat
      (1 / 2) 4 7%nat 0 = Ok (a, epsilon) /\
    (a < length [0; 1; 2]%nat)%nat /\
    ((1 / 2 <= epsilon)%R ->
       DDDQN.randint (length [0; 1; 2]%nat) 4 = Ok a /\
       a = (4 mod length [0; 1; 2]%nat)%nat /\
       forall k, (k < length [0; 1; 2]%nat)%nat ->
         DDDQN.policy_fn dueling_example (5 / 100) (9 / 10) (1 / 200) [0; 1; 2]%nat
           (1 / 2) k 7%nat 0 = Ok (k, epsilon)) /\
    (~ (1 / 2 <= epsilon)%R ->
       exists q_values m,
         DDDQN.forward dueling_example [7%nat] = [q_values] /\
         Tensor.argmax q_values = Ok a /\
         q_values !! a = Some m /\
         forall x, x ∈ q_values -> (x <= m)%R).
Proof.
  apply (epsilon_greedy_action dueling_example (5 / 100) (9 / 10) (1 / 200)
           [0; 1; 2]%nat (1 / 2) 4 7%nat 0).
  - discriminate.
  - reflexivity.
Defined.

(** ** Synchronisation of the target network *)

Section Sync.

Local Open Scope R_scope.
Import Params.

Lemma parameters_ext (h1 h2 : Store) (n1 n2 : Net) :
  length n1 = length n2 ->
  (forall i l1 l2, n1 !! i = Some l1 -> n2 !! i = Some l2 -> h1 !! l1 = h2 !! l2) ->
  parameters h1 n1 = parameters h2 n2.
Proof.
  revert n2. induction n1 as [|l1 n1 IH]; intros [|l2 n2] Hlen H;
    simpl in Hlen; try discriminate; [reflexivity|].
  simpl. rewrite (H 0%nat l1 l2 eq_refl eq_refl).
  rewrite (IH n2); [reflexivity | lia |].
  intros i x y Hx Hy. apply (H (S i) x y Hx Hy).
Qed.

Lemma parameters_same (h1 h2 : Store) (net : Net) :
  (forall x, x ∈ net -> h1 !! x = h2 !! x) ->
  parameters h1 net = parameters h2 net.
Proof.
  intros H. apply parameters_ext; [reflexivity|].
  intros i l1 l2 H1 H2. assert (l1 = l2) as -> by congruence.
  apply H. eapply list_elem_of_lookup_2, H2.
Qed.

Lemma assign_other (net : Net) (vs : list (list R)) (h : Store) (x : nat) :
  x ∉ net -> assign net vs h !! x = h !! x.
Proof.
  revert vs h. induction net as [|l net IH]; intros vs h Hx; [reflexivity|].
  destruct vs as [|v vs]; [reflexivity|]. simpl.
  rewrite IH by (intros Hin; apply Hx; right; exact Hin).
  apply lookup_insert_ne. intros ->. apply Hx. left.
Qed.

Lemma load_state_dict_spec (net sd : Net) (h h' : Store) :
  load_state_dict net sd h = Ok h' ->
  NoDup net -> (forall x, x ∈ net -> x ∉ sd) ->
  length net = length sd /\
  (forall x, x ∉ net -> h' !! x = h !! x) /\
  (forall i l src, net !! i = Some l -> sd !! i = Some src -> h' !! l = h !! src).
Proof.
  revert sd h. induction net as [|l net IH]; intros [|src sd] h Hload Hnd Hdis;
    simpl in Hload; try discriminate.
  - injection Hload as <-. repeat split; auto. intros i l src Hl. discriminate.
  - destruct (h !! l) as [old|] eqn:Hl; [|discriminate].
    destruct (h !! src) as [v|] eqn:Hsrc; [|discriminate].
    destruct (decide (length old = length v)); [|discriminate].
    apply NoDup_cons in Hnd as [Hnotin Hnd].
    destruct (IH sd _ Hload Hnd) as (Hlen & Hother & Hcopy).
    { intros x Hx Hin. apply (Hdis x); [right; exact Hx | right; exact Hin]. }
    split; [simpl; congruence|]. split.
    + intros x Hx. rewrite Hother by (intros Hin; apply Hx; right; exact Hin).
      apply lookup_insert_ne. intros ->. apply Hx. left.
    + intros [|i] l' src' Hl' Hs'; simpl in *.
      * injection Hl' as <-. injection Hs' as <-.
        rewrite Hother by exact Hnotin. rewrite lookup_insert_eq. congruence.
      * rewrite (Hcopy i l' src' Hl' Hs').
        apply lookup_insert_ne. intros Heq.
        apply (Hdis l); [left | right; rewrite Heq; eapply list_elem_of_lookup_2, Hs'].
Qed.

Lemma load_state_dict_ok (net sd : Net) (h : Store) :
  length net = length sd ->
  NoDup net -> (forall x, x ∈ net -> x ∉ sd) ->
  (forall i l src, net !! i = Some l -> sd !! i = Some src ->
     exists old v, h !! l = Some old /\ h !! src = Some v /\ length old = length v) ->
  exists h', load_state_dict net sd h = Ok h'.
Proof.
  revert sd h. induction net as [|l net IH]; intros [|src sd] h Hlen Hnd Hdis Hsh;
    simpl in Hlen; try discriminate.
  - exists h. reflexivity.
  - destruct (Hsh 0%nat l src eq_refl eq_refl) as (old & v & Hl & Hsrc & Hov).
    simpl. rewrite Hl, Hsrc. rewrite decide_True by exact Hov.
    apply NoDup_cons in Hnd as [Hnotin Hnd].
    apply IH; [lia | exact Hnd | |].
    + intros x Hx Hin. apply (Hdis x); [right; exact Hx | right; exact Hin].
    + intros i l' src' Hl' Hs'.
      destruct (Hsh (S i) l' src' Hl' Hs') as (old' & v' & H1 & H2 & H3).
      exists old', v'. split; [|split; [|exact H3]].
      * rewrite lookup_insert_ne; [exact H1|]. intros Heq.
        apply Hnotin. rewrite Heq. eapply list_elem_of_lookup_2, Hl'.
      * rewrite lookup_insert_ne; [exact H2|]. intros Heq.
        apply (Hdis l); [left | right; rewrite Heq; eapply list_elem_of_lookup_2, Hs'].
Qed.

End Sync.

(** ** The training loop, step by step *)

Section LoopFacts.

Local Open Scope R_scope.
Import Train Params Observe.

Context {RawFrame Frame World OptState : Type}.
Variable setup : @Setup RawFrame Frame World OptState.

Abbreviation Loop := (@Loop Frame World OptState).

Lemma length_slide (s : list Frame) (f : Frame) :
  s <> [] -> length (slide s f) = length s.
Proof.
  intros Hs. unfold slide. rewrite length_app, length_drop. simpl.
  destruct s; [congruence | simpl; lia].
Qed.

Lemma add_Forall (P : Transition Frame -> Prop) (tr : Transition Frame)
    (b : ExperienceBuffer Frame) :
  Forall P (items b) -> P tr -> Forall P (items (add tr b)).
Proof.
  intros Hb Htr. unfold add.
  destruct (decide (length (items b) < buffer_size b)%nat); simpl.
  - apply Forall_app. split; [exact Hb | repeat constructor; exact Htr].
  - apply Forall_insert; assumption.
Qed.

Lemma omap_Forall {A B} (P : B -> Prop) (f : A -> option B) (l : list A) :
  (forall a b, f a = Some b -> P b) -> Forall P (omap f l).
Proof.
  intros H. induction l as [|a l IH]; simpl; [constructor|].
  destruct (f a) as [b|] eqn:Hfa; [constructor; eauto | exact IH].
Qed.

Lemma sample_Forall (P : Transition Frame -> Prop) (b : ExperienceBuffer Frame)
    (n : nat) (draws : nat -> nat) (batch : list (Transition Frame)) :
  Forall P (items b) -> sample b n draws = Ok batch -> Forall P batch.
Proof.
  intros Hb. unfold sample.
  destruct (decide (length (items b) < n)%nat); [discriminate|].
  intros [= <-]. apply omap_Forall.
  intros i tr Hi. eapply Forall_lookup_1; eassumption.
Qed.

Lemma sample_underflow (b : ExperienceBuffer Frame) (n : nat) (draws : nat -> nat) :
  (length (items b) < n)%nat -> sample b n draws = Raise InsufficientDataError.
Proof. intros H. unfold sample. rewrite decide_True by exact H. reflexivity. Qed.

Lemma omap_length_all {A B} (f : A -> option B) (l : list A) :
  (forall a, a ∈ l -> is_Some (f a)) -> length (omap f l) = length l.
Proof.
  induction l as [|a l IH]; intros H; simpl; [reflexivity|].
  destruct (H a) as [b Hb]; [left|]. rewrite Hb. simpl.
  f_equal. apply IH. intros a' Ha'. apply H. right. exact Ha'.
Qed.

Lemma sample_enough (b : ExperienceBuffer Frame) (n : nat) (draws : nat -> nat) :
  (n <= length (items b))%nat ->
  exists batch, sample b n draws = Ok batch /\ length batch = n /\
                forall tr, tr ∈ batch -> tr ∈ items b.
Proof.
  intros H. unfold sample. rewrite decide_False by lia.
  eexists. split; [reflexivity|]. split.
  - destruct n as [|n]; [reflexivity|].
    rewrite omap_length_all; [apply length_seq|].
    intros i _. apply lookup_lt_is_Some_2, Nat.mod_upper_bound. lia.
  - intros tr Htr.
    revert tr Htr. apply Forall_forall.
    apply omap_Forall. intros i x Hx. eapply list_elem_of_lookup_2, Hx.
Qed.

Lemma reset_state_spec (l : Loop) :
  exists w f,
    reset_state setup l = set_state (stack4 f) (set_world w l) /\
    f = state_processor setup (env_reset setup (world l)).2.
Proof.
  unfold reset_state. destruct (env_reset setup (world l)) as [w raw].
  eauto.
Qed.

Lemma interact_spec (l l1 : Loop) (tr : Transition Frame) (d : bool) :
  interact setup l = Ok (l1, (tr, d)) ->
  cur_state l1 = cur_state l /\ replay_memory l1 = replay_memory l /\
  heap l1 = heap l /\ GLOBAL_STEP l1 = GLOBAL_STEP l /\
  opt l1 = opt l /\ i_episode l1 = i_episode l /\
  state tr = cur_state l /\
  (exists f, next_state tr = slide (cur_state l) f) /\
  done tr = float_of_bool d /\
  trace l1 = EvEnvStep (action tr) :: EvPolicy (cur_state l) (GLOBAL_STEP l)
               :: trace l.
Proof.
  unfold interact. intros H.
  apply rbind_Ok in H as (ps & _ & H).
  apply rbind_Ok in H as ([w1 [a eps]] & _ & H).
  destruct (env_step setup w1 a) as [w2 [[raw rew] d']].
  injection H as <- <- <-. simpl. repeat split; eauto.
Qed.

Lemma update_spec (l l' : Loop) :
  update setup l = Ok l' ->
  cur_state l' = cur_state l /\ replay_memory l' = replay_memory l /\
  GLOBAL_STEP l' = GLOBAL_STEP l /\ i_episode l' = i_episode l /\
  episode_rewards l' = episode_rewards l /\
  exists draws batch ps',
    sample (replay_memory l) (batch_size (args setup)) draws = Ok batch /\
    trace l' = EvUpdate batch :: trace l /\
    heap l' = assign (q_network setup) ps' (heap l).
Proof.
  unfold update. destruct (sample_draws setup (world l)) as [w draws].
  intros H.
  apply rbind_Ok in H as (batch & Hb & H).
  apply rbind_Ok in H as (tf & _ & H).
  apply rbind_Ok in H as (tv & _ & H).
  apply rbind_Ok in H as (ps & _ & H).
  destruct (opt_step setup (opt l) ps _) as [o ps'].
  injection H as <-. simpl. repeat split; eauto 10.
Qed.

Lemma body_spec (t : Z) (l l' : Loop) (d : bool) :
  body setup t l = Ok (l', d) ->
  exists l1 tr h l5,
    interact setup l = Ok (l1, (tr, d)) /\
    sync_target (q_network setup) (t_network setup) (GLOBAL_STEP l)
      (update_target_estimator_every (args setup)) (heap l) = Ok h /\
    update setup
      (set_stats (episode_rewards l1 + reward tr) t
         (emit (EvAdd tr)
            (set_replay_memory (add tr (replay_memory l1)) (set_heap h l1))))
      = Ok l5 /\
    l' = (if d then l5
          else set_GLOBAL_STEP (GLOBAL_STEP l5 + 1) (set_state (next_state tr) l5)).
Proof.
  unfold body. intros H.
  apply rbind_Ok in H as ([l1 [tr d']] & Hi & H).
  apply rbind_Ok in H as (h & Hh & H).
  apply rbind_Ok in H as (l5 & Hu & H).
  destruct (interact_spec _ _ _ _ Hi) as (_ & _ & Hheap & Hgs & _).
  rewrite Hheap, Hgs in Hh. simpl in Hu.
  exists l1, tr, h, l5.
  destruct d'; injection H as <- <-; auto.
Qed.

Lemma populate_step_spec (l l' : Loop) :
  populate_step setup l = Ok l' ->
  exists l1 tr d l3,
    interact setup l = Ok (l1, (tr, d)) /\
    l3 = (let l2 := emit (EvAdd tr)
                      (set_replay_memory (add tr (replay_memory l1)) l1) in
          if d then reset_state setup l2 else set_state (next_state tr) l2) /\
    l' = set_GLOBAL_STEP (GLOBAL_STEP l3 + 1) l3.
Proof.
  unfold populate_step. intros H.
  apply rbind_Ok in H as ([l1 [tr d]] & Hi & H).
  injection H as <-. eauto 10.
Qed.

End LoopFacts.

(** ** The window of stacked frames *)

Section Window.

Import Train Params Observe.

Context {RawFrame Frame World OptState : Type}.
Variable setup : @Setup RawFrame Frame World OptState.

Abbreviation LoopW := (@Loop Frame World OptState).

Lemma inv_reset_state (l : LoopW) : stored l -> window_inv (reset_state setup l).
Proof.
  intros Hs. destruct (reset_state_spec setup l) as (w & f & -> & _).
  split; [reflexivity | exact Hs].
Qed.

Lemma inv_episode_start (l : LoopW) : stored l -> window_inv (episode_start setup l).
Proof.
  intros Hs. destruct (inv_reset_state l Hs) as [H4 [Hi Ht]].
  unfold episode_start. repeat split; assumption.
Qed.

Lemma stored_episode_end (l : LoopW) : stored l -> stored (episode_end l).
Proof.
  intros [Hi Ht]. split; [exact Hi|]. simpl. constructor; [exact I | exact Ht].
Qed.

Lemma interact_inv (l l1 : LoopW) (tr : Transition Frame) (d : bool) :
  window_inv l -> interact setup l = Ok (l1, (tr, d)) ->
  window_inv l1 /\ four_frames tr.
Proof.
  intros (H4 & Hi & Ht) H.
  destruct (interact_spec setup _ _ _ _ H)
    as (Hc & Hm & _ & _ & _ & _ & Hst & (f & Hnx) & _ & Htr).
  split; [split; [congruence | split]|].
  - rewrite Hm. exact Hi.
  - rewrite Htr. repeat constructor; [exact H4 | exact Ht].
  - split; [congruence|]. rewrite Hnx, length_slide; [exact H4|].
    intros Hnil. rewrite Hnil in H4. discriminate.
Qed.

Lemma body_inv (t : Z) (l l' : LoopW) (d : bool) :
  window_inv l -> body setup t l = Ok (l', d) ->
  stored l' /\ (d = false -> window_inv l').
Proof.
  intros Hinv H.
  destruct (body_spec setup _ _ _ _ H) as (l1 & tr & h & l5 & Hi & _ & Hu & ->).
  destruct (interact_inv _ _ _ _ Hinv Hi) as [(H4 & Hit & Htr) Hfour].
  destruct (update_spec setup _ _ Hu)
    as (Hc & Hm & _ & _ & _ & draws & batch & ps' & Hb & Ht5 & _).
  simpl in Hc, Hm, Hb, Ht5.
  assert (Hitems : Forall four_frames (items (add tr (replay_memory l1))))
    by (apply add_Forall; assumption).
  assert (Hs5 : stored l5).
  { split; [rewrite Hm; exact Hitems|]. rewrite Ht5.
    constructor; [|constructor; assumption].
    simpl. eapply sample_Forall; eassumption. }
  destruct d.
  - split; [exact Hs5 | discriminate].
  - assert (Hs : stored (set_GLOBAL_STEP (GLOBAL_STEP l5 + 1)
                           (set_state (next_state tr) l5))) by exact Hs5.
    split; [exact Hs|]. intros _. split; [|exact Hs].
    simpl. apply Hfour.
Qed.

Lemma populate_step_inv (l l' : LoopW) :
  window_inv l -> populate_step setup l = Ok l' -> window_inv l'.
Proof.
  intros Hinv H.
  destruct (populate_step_spec setup _ _ H) as (l1 & tr & d & l3 & Hi & -> & ->).
  destruct (interact_inv _ _ _ _ Hinv Hi) as [(H4 & Hit & Htr) Hfour].
  assert (Hs : stored (emit (EvAdd tr)
                 (set_replay_memory (add tr (replay_memory l1)) l1))).
  { split; simpl; [apply add_Forall; assumption | constructor; assumption]. }
  cbv zeta. destruct d.
  - destruct (inv_reset_state _ Hs) as (H4' & Hs').
    split; [exact H4' | exact Hs'].
  - split; [simpl; apply Hfour | exact Hs].
Qed.

Lemma populate_inv (n : nat) (l l' : LoopW) :
  window_inv l -> populate setup n l = Ok l' -> window_inv l'.
Proof.
  revert l. induction n as [|n IH]; intros l Hinv H; simpl in H.
  - injection H as <-. exact Hinv.
  - apply rbind_Ok in H as (l1 & H1 & H).
    eapply IH; [|exact H]. eapply populate_step_inv; eassumption.
Qed.

Lemma main_loop_inv (fuel : nat) (t : Z) (l l' : LoopW) :
  window_inv l -> main_loop setup fuel t l = Ok l' -> window_inv l'.
Proof.
  revert t l. induction fuel as [|fuel IH]; intros t l Hinv H; simpl in H.
  - injection H as <-. exact Hinv.
  - apply rbind_Ok in H as ([l1 d] & Hb & H). simpl in H.
    destruct (body_inv _ _ _ _ Hinv Hb) as [Hs Hc].
    destruct d.
    + eapply IH; [|exact H].
      apply inv_episode_start, stored_episode_end, Hs.
    + eapply IH; [|exact H]. apply Hc. reflexivity.
Qed.

(** C7.  The window is built from four copies of one frame, and sliding
    a window of four frames drops its first frame and appends the new one
    after the other three.  Every episode starts on four copies of the
    first processed frame.  At every point of a run of [work] the current
    window holds four frames, and so do both states of every transition in
    the replay memory and every state that was given to the policy, stored
    in the memory or sampled for the networks. *)
Theorem stacked_frame_window (fuel : nat) (w : World) (h : Store) (o : OptState)
    (l : LoopW) :
  work setup fuel w h o = Ok l ->
  (forall f : Frame, stack4 f = [f; f; f; f]) /\
  (forall a b c d f : Frame, slide [a; b; c; d] f = [b; c; d; f]) /\
  (forall l0 : LoopW,
     cur_state (episode_start setup l0)
     = stack4 (state_processor setup (env_reset setup (world l0)).2)) /\
  length (cur_state l) = 4 /\
  Forall four_frames (items (replay_memory l)) /\
  Forall event_four_frames (trace l).
Proof.
  intros H.
  split; [reflexivity|]. split; [reflexivity|]. split.
  { intros l0. unfold episode_start.
    destruct (reset_state_spec setup l0) as (w' & f & -> & ->). reflexivity. }
  unfold work, work_from in H. apply rbind_Ok in H as (l1 & Hp & H).
  assert (Hinv1 : window_inv l1).
  { eapply populate_inv; [|exact Hp]. apply inv_reset_state.
    split; simpl; constructor. }
  assert (Hinv : window_inv l).
  { eapply main_loop_inv; [|exact H]. apply inv_episode_start, Hinv1. }
  destruct Hinv as (H4 & Hi & Ht). auto.
Qed.

End Window.

(** Evaluation of a run on a concrete instance; the real numbers stay as
    they are written. *)
Ltac run :=
  with_strategy transparent [gmap_empty]
    (lazy -[Rplus Rminus Rmult Rdiv Rinv Ropp IZR INR sqrt exp
            Rlt_dec Rle_dec Rgt_dec Rmax]).

Lemma stacked_frame_window_witness :
  exists l,
    Train.work (stub 0 1 ends) 4 0%nat stub_heap tt = Ok l /\
    (forall f : nat, Train.stack4 f = [f; f; f; f]) /\
    (forall a b c d f : nat, Train.slide [a; b; c; d] f = [b; c; d; f]) /\
    (forall l0,
       Train.cur_state (Train.episode_start (stub 0 1 ends) l0)
       = Train.stack4
           (Train.state_processor (stub 0 1 ends)
              (Train.env_reset (stub 0 1 ends) (Train.world l0)).2)) /\
    length (Train.cur_state l) = 4 /\
    Forall Observe.four_frames (Train.items (Train.replay_memory l)) /\
    Forall Observe.event_four_frames (Train.trace l).
Proof.
  eexists. split.
  - run. reflexivity.
  - apply (stacked_frame_window (stub 0 1 ends) 4 0%nat stub_heap tt).
    run. reflexivity.
Defined.

(** ** The global step counter *)

Section Counter.

Import Train Params Observe.

Context {RawFrame Frame World OptState : Type}.
Variable setup : @Setup RawFrame Frame World OptState.

Abbreviation LoopC := (@Loop Frame World OptState).

Lemma counted_reset_state (l : LoopC) : counted l -> counted (reset_state setup l).
Proof.
  intros H. destruct (reset_state_spec setup l) as (w & f & -> & _). exact H.
Qed.

Lemma counted_populate_step (l l' : LoopC) :
  counted l -> populate_step setup l = Ok l' -> counted l'.
Proof.
  unfold counted. intros Hc H.
  destruct (populate_step_spec setup _ _ H) as (l1 & tr & d & l3 & Hi & -> & ->).
  destruct (interact_spec setup _ _ _ _ Hi)
    as (_ & _ & _ & Hgs & _ & _ & _ & _ & _ & Htr).
  cbv zeta. destruct d.
  - destruct (reset_state_spec setup
                (emit (EvAdd tr)
                   (set_replay_memory (add tr (replay_memory l1)) l1)))
      as (w & f & -> & _).
    simpl. rewrite Htr, Hgs. unfold env_steps, yields in *. simpl. lia.
  - simpl. rewrite Htr, Hgs. unfold env_steps, yields in *. simpl. lia.
Qed.

Lemma counted_populate (n : nat) (l l' : LoopC) :
  counted l -> populate setup n l = Ok l' -> counted l'.
Proof.
  revert l. induction n as [|n IH]; intros l Hc H; simpl in H.
  - injection H as <-. exact Hc.
  - apply rbind_Ok in H as (l1 & H1 & H).
    eapply IH; [|exact H]. eapply counted_populate_step; eassumption.
Qed.

Lemma body_counts (t : Z) (l l' : LoopC) (d : bool) :
  body setup t l = Ok (l', d) ->
  env_steps (trace l') = S (env_steps (trace l)) /\
  yields (trace l') = yields (trace l) /\
  GLOBAL_STEP l' = (if d then GLOBAL_STEP l else GLOBAL_STEP l + 1)%Z.
Proof.
  intros H.
  destruct (body_spec setup _ _ _ _ H) as (l1 & tr & h & l5 & Hi & _ & Hu & ->).
  destruct (interact_spec setup _ _ _ _ Hi)
    as (_ & _ & _ & Hgs & _ & _ & _ & _ & _ & Htr).
  destruct (update_spec setup _ _ Hu)
    as (_ & _ & Hgs5 & _ & _ & draws & batch & ps' & _ & Ht5 & _).
  simpl in Hgs5, Ht5.
  assert (He : env_steps (trace l5) = S (env_steps (trace l)))
    by (rewrite Ht5, Htr; reflexivity).
  assert (Hy : yields (trace l5) = yields (trace l))
    by (rewrite Ht5, Htr; reflexivity).
  destruct d; simpl; rewrite ?He, ?Hy, Hgs5, Hgs; auto.
Qed.

Lemma counted_main_loop (fuel : nat) (t : Z) (l l' : LoopC) :
  counted l -> main_loop setup fuel t l = Ok l' -> counted l'.
Proof.
  unfold counted.
  revert t l. induction fuel as [|fuel IH]; intros t l Hc H; simpl in H.
  - injection H as <-. exact Hc.
  - apply rbind_Ok in H as ([l1 d] & Hb & H). simpl in H.
    destruct (body_counts _ _ _ _ Hb) as (He & Hy & Hg).
    destruct d.
    + eapply IH; [|exact H]. unfold episode_start.
      destruct (reset_state_spec setup (episode_end l1)) as (w & f & -> & _).
      simpl. unfold env_steps, yields in *. simpl.
      fold (count is_env_step (trace l1)). fold (count is_yield (trace l1)).
      lia.
    + eapply IH; [|exact H]. lia.
Qed.

(** The counter along a run of [work]: every call of [env.step] is
    counted, except the one that ends an episode of the main loop. *)
Lemma global_step_lags_by_episodes (fuel : nat) (w : World) (h : Store)
    (o : OptState) (l : LoopC) :
  work setup fuel w h o = Ok l ->
  GLOBAL_STEP l
  = (Z.of_nat (env_steps (trace l)) - Z.of_nat (yields (trace l)))%Z.
Proof.
  intros H. unfold work, work_from in H. apply rbind_Ok in H as (l1 & Hp & H).
  assert (Hc1 : counted l1).
  { eapply counted_populate; [|exact Hp]. apply counted_reset_state.
    reflexivity. }
  assert (Hc : counted l).
  { eapply counted_main_loop; [|exact H]. unfold episode_start.
    destruct (reset_state_spec setup l1) as (w' & f & -> & _). exact Hc1. }
  unfold counted in Hc. lia.
Qed.

End Counter.

(** C8 (the code departs from it).  The counter starts at 0 and the loop
    that fills the replay memory adds one for every call of [env.step],
    terminal or not: three calls, two of them terminal, leave it at 3.  The
    main loop leaves the round through [break] before the increment: five
    calls of [env.step], two of them terminal, leave the counter at 3. *)
Theorem global_step_misses_terminal_steps :
  Train.GLOBAL_STEP_init = 0%Z /\
  (exists l,
     Train.work (stub 3 1 ends) 0 0%nat stub_heap tt = Ok l /\
     Observe.env_steps (Train.trace l) = 3 /\ Train.GLOBAL_STEP l = 3%Z) /\
  (exists l,
     Train.work (stub 0 1 ends) 5 0%nat stub_heap tt = Ok l /\
     Observe.env_steps (Train.trace l) = 5 /\ Observe.yields (Train.trace l) = 2 /\
     Train.GLOBAL_STEP l = 3%Z).
Proof.
  split; [reflexivity|]. split.
  - eexists. split; [run; reflexivity|]. split; reflexivity.
  - eexists. split; [run; reflexivity|]. repeat split; reflexivity.
Qed.

(** ** The TD targets of the update step *)

Section UpdateTargets.

Local Open Scope R_scope.
Import Train Params.

Context {RawFrame Frame World OptState : Type}.
Variable setup : @Setup RawFrame Frame World OptState.

(** C1.  An update step that completes has sampled a batch from the replay
    memory, evaluated the target network, under the values [pt] of its
    parameters at that moment, on the next states of the batch, and
    computed for the transition at every position [i] of the batch the
    target [reward + discount_factor * (1 - done) * m], where [m] is the
    largest entry of the target network's output for the next state of
    that transition.  For a transition with done = True, stored as
    [float(True)], the target is the reward itself, whatever the target
    network predicts.  These targets are the ones given to the loss: the
    parameters of the online network after the step are those the
    optimizer derives from the clipped gradients of the loss against
    them. *)
Theorem td_target_formula (l l' : @Loop Frame World OptState) :
  update setup l = Ok l' ->
  exists (batch : list (Transition Frame)) (pt : list (list R))
         (t_values : list R) (ps : list (list R)),
    sample (replay_memory l) (batch_size (args setup))
      (sample_draws setup (world l)).2 = Ok batch /\
    parameters (heap l) (t_network setup) = Ok pt /\
    forward (arch setup) (heap l) (t_network setup) (map next_state batch)
    = Ok (map (fun tr => arch setup pt (next_state tr)) batch) /\
    td_target (discount_factor (args setup)) (map reward batch) (map done batch)
      (map (fun tr => arch setup pt (next_state tr)) batch) = Ok t_values /\
    length t_values = length batch /\
    (forall i tr, batch !! i = Some tr ->
       exists m,
         Tensor.max_value (arch setup pt (next_state tr)) = Ok m /\
         m ∈ arch setup pt (next_state tr) /\
         (forall x, x ∈ arch setup pt (next_state tr) -> x <= m) /\
         t_values !! i
         = Some (reward tr + discount_factor (args setup) * (1 - done tr) * m) /\
         (done tr = float_of_bool true -> t_values !! i = Some (reward tr))) /\
    parameters (heap l) (q_network setup) = Ok ps /\
    heap l'
    = assign (q_network setup)
        (opt_step setup (opt l) ps
           (Optim.clip_grad_norm (max_grad_norm (args setup))
              (backward setup ps batch t_values))).2
        (heap l).
Proof.
  unfold update. destruct (sample_draws setup (world l)) as [w draws] eqn:Hdraws.
  intros H.
  apply rbind_Ok in H as (batch & Hb & H).
  apply rbind_Ok in H as (tf & Hf & H).
  apply rbind_Ok in H as (tv & Htv & H).
  apply rbind_Ok in H as (ps & Hps & H).
  unfold forward in Hf. apply rbind_Ok in Hf as (pt & Hpt & [= <-]).
  rewrite map_map in Htv.
  exists batch, pt, tv, ps.
  split; [exact Hb|]. split; [exact Hpt|]. split.
  { unfold forward. rewrite Hpt. simpl. rewrite map_map. reflexivity. }
  split; [exact Htv|].
  assert (Hrows : Forall (fun row => row <> [])
                    (map (fun tr => arch setup pt (next_state tr)) batch)).
  { unfold td_target in Htv. apply rbind_Ok in Htv as (ms & Hms & _).
    eapply max_dim1_rows, Hms. }
  destruct (td_target_rows (discount_factor (args setup))
              (map reward batch) (map done batch)
              (map (fun tr => arch setup pt (next_state tr)) batch))
    as (tv' & Htv' & Hlen & Hrow);
    [rewrite !length_map; reflexivity.. | exact Hrows |].
  assert (tv' = tv) as -> by congruence.
  split; [rewrite Hlen, length_map; reflexivity|]. split.
  { intros i tr Hi.
    apply (Hrow i (reward tr) (done tr) (arch setup pt (next_state tr)));
      rewrite lookup_map, Hi; reflexivity. }
  split; [exact Hps|].
  destruct (opt_step setup (opt l) ps _) as [o ps'] eqn:Hstep.
  injection H as <-. reflexivity.
Qed.

End UpdateTargets.

(** The state of the loop after a warm-up of two interactions, the first of
    which ended an episode: the batch holds a terminal transition, whose
    target is its reward 1, and one that is not, whose target adds half the
    value that the target network gives to the better action in its next
    state. *)
Lemma td_target_formula_witness :
  let st := MoreExamples.stub_frames 2 2 ends in
  exists l l',
    Train.populate st 2
      (Train.reset_state st (Train.initial st 0%nat stub_heap [[0%R]])) = Ok l /\
    Train.update st l = Ok l' /\
    exists (batch : list (Train.Transition nat)) (pt : list (list R))
           (t_values : list R) (ps : list (list R)),
      Train.sample (Train.replay_memory l) (Train.batch_size (Train.args st))
        (Train.sample_draws st (Train.world l)).2 = Ok batch /\
      Params.parameters (Train.heap l) (Train.t_network st) = Ok pt /\
      Params.forward (Train.arch st) (Train.heap l) (Train.t_network st)
        (map Train.next_state batch)
      = Ok (map (fun tr => Train.arch st pt (Train.next_state tr)) batch) /\
      Train.td_target (Train.discount_factor (Train.args st))
        (map Train.reward batch) (map Train.done batch)
        (map (fun tr => Train.arch st pt (Train.next_state tr)) batch)
      = Ok t_values /\
      length t_values = length batch /\
      (forall i tr, batch !! i = Some tr ->
         exists m,
           Tensor.max_value (Train.arch st pt (Train.next_state tr)) = Ok m /\
           m ∈ Train.arch st pt (Train.next_state tr) /\
           (forall x, x ∈ Train.arch st pt (Train.next_state tr) -> (x <= m)%R) /\
           t_values !! i
           = Some (Train.reward tr
                   + Train.discount_factor (Train.args st)
                     * (1 - Train.done tr) * m)%R /\
           (Train.done tr = Train.float_of_bool true ->
            t_values !! i = Some (Train.reward tr))) /\
      Params.parameters (Train.heap l) (Train.q_network st) = Ok ps /\
      Train.heap l'
      = Params.assign (Train.q_network st)
          (Train.opt_step st (Train.opt l) ps
             (Optim.clip_grad_norm (Train.max_grad_norm (Train.args st))
                (Train.backward st ps batch t_values))).2
          (Train.heap l).
Proof.
  intros st. eexists. eexists.
  split; [run; reflexivity|].
  split; [run; reflexivity|].
  apply (td_target_formula st). run. reflexivity.
Defined.

(** ** Sampling from a replay memory that is too small *)

Section Underflow.

Import Train Params Observe.

Context {RawFrame Frame World OptState : Type}.
Variable setup : @Setup RawFrame Frame World OptState.

Abbreviation LoopU := (@Loop Frame World OptState).

(** C9, as the code has it.  [sample] fails with InsufficientDataError
    exactly when the memory holds fewer transitions than the batch asks
    for, and otherwise returns a batch of the requested size drawn from the
    memory.  The loop calls [sample] in every round, without a test of the
    size and without a handler: in a round where the memory, after the
    insertion of the new transition, is smaller than the batch, the error
    leaves the round and the loop, before any target is computed or any
    optimizer step is taken. *)
Theorem sample_underflow_propagates (t : Z) (l l1 : LoopU)
    (tr : Transition Frame) (d : bool) (h : Store) :
  interact setup l = Ok (l1, (tr, d)) ->
  sync_target (q_network setup) (t_network setup) (GLOBAL_STEP l)
    (update_target_estimator_every (args setup)) (heap l) = Ok h ->
  (length (items (add tr (replay_memory l))) < batch_size (args setup))%nat ->
  (forall (b : ExperienceBuffer Frame) n draws,
     ((length (items b) < n)%nat ->
        sample b n draws = Raise InsufficientDataError) /\
     ((n <= length (items b))%nat ->
        exists batch, sample b n draws = Ok batch /\ length batch = n /\
                      forall x, x ∈ batch -> x ∈ items b)) /\
  body setup t l = Raise InsufficientDataError /\
  forall fuel, main_loop setup (S fuel) t l = Raise InsufficientDataError.
Proof.
  intros Hi Hh Hlt.
  split; [intros b n draws; split; [apply sample_underflow | apply sample_enough]|].
  assert (Hb : body setup t l = Raise InsufficientDataError).
  { destruct (interact_spec setup _ _ _ _ Hi) as (_ & Hm & Hheap & Hgs & _).
    unfold body. rewrite Hi. simpl. rewrite Hgs, Hheap, Hh. simpl.
    unfold update. simpl.
    destruct (sample_draws setup (world l1)) as [w draws].
    rewrite Hm, sample_underflow by exact Hlt. reflexivity. }
  split; [exact Hb|]. intros fuel. simpl. rewrite Hb. reflexivity.
Qed.

End Underflow.

Lemma sample_underflow_propagates_witness :
  let st := stub 0 2 ends in
  let l0 := Train.episode_start st
              (Train.reset_state st (Train.initial st 0%nat stub_heap tt)) in
  (forall (b : Train.ExperienceBuffer nat) n draws,
     ((length (Train.items b) < n)%nat ->
        Train.sample b n draws = Raise InsufficientDataError) /\
     ((n <= length (Train.items b))%nat ->
        exists batch, Train.sample b n draws = Ok batch /\ length batch = n /\
                      forall x, x ∈ batch -> x ∈ Train.items b)) /\
  Train.body st 0 l0 = Raise InsufficientDataError /\
  forall fuel, Train.main_loop st (S fuel) 0 l0 = Raise InsufficientDataError.
Proof.
  intros st l0.
  eapply (sample_underflow_propagates st 0%Z l0).
  - run. reflexivity.
  - run. reflexivity.
  - run. lia.
Defined.

(** C9 as stated does not hold: with an empty warm-up phase and batches of
    two, the first round of the main loop finds one transition in the
    memory, and [work] ends with InsufficientDataError instead of going
    on. *)
Lemma underflow_aborts_training :
  let st := stub 0 2 ends in
  let l0 := Train.episode_start st
              (Train.reset_state st (Train.initial st 0%nat stub_heap tt)) in
  (length (Train.items (Train.replay_memory l0)) + 1
     < Train.batch_size (Train.args st))%nat /\
  Train.body st 0 l0 = Raise InsufficientDataError /\
  Train.work st 1 0%nat stub_heap tt = Raise InsufficientDataError /\
  ~ exists l, Train.work st 1 0%nat stub_heap tt = Ok l.
Proof.
  intros st l0.
  assert (Hw : Train.work st 1 0%nat stub_heap tt = Raise InsufficientDataError)
    by (run; reflexivity).
  split; [run; lia|]. split; [run; reflexivity|]. split; [exact Hw|].
  intros [l Hl]. rewrite Hw in Hl. discriminate.
Qed.

(** ** The target network after a synchronisation *)

Section TargetSync.

Import Train Params Observe.

Context {RawFrame Frame World OptState : Type}.
Variable setup : @Setup RawFrame Frame World OptState.

Abbreviation LoopT := (@Loop Frame World OptState).

Lemma parameters_ok (h : Store) (net : Net) :
  (forall x, x ∈ net -> is_Some (h !! x)) -> exists ps, parameters h net = Ok ps.
Proof.
  induction net as [|x net IH]; intros H; simpl; [eauto|].
  destruct (H x) as [v Hv]; [left|]. rewrite Hv.
  destruct IH as [ps Hps]; [intros y Hy; apply H; right; exact Hy|].
  rewrite Hps. simpl. eauto.
Qed.


End TargetSync.




(** ** More on sums and means *)

Section MeanFacts.

Local Open Scope R_scope.

Lemma sum_cons (x : R) (t : list R) : Tensor.sum (x :: t) = x + Tensor.sum t.
Proof. reflexivity. Qed.

Lemma sum_nonneg (t : list R) : Forall (fun x => 0 <= x) t -> 0 <= Tensor.sum t.
Proof.
  induction 1 as [|x t Hx _ IH]; [unfold Tensor.sum; simpl; lra|].
  rewrite sum_cons. lra.
Qed.

Lemma sum_map_affine (v m : R) (t : list R) :
  Tensor.sum (map (fun a => v + (a - m)) t)
  = INR (length t) * (v - m) + Tensor.sum t.
Proof.
  induction t as [|x t IH].
  - unfold Tensor.sum. simpl. ring.
  - cbn [map length]. rewrite !sum_cons, IH, S_INR. ring.
Qed.

Lemma INR_length_pos {A} (t : list A) : t <> [] -> 0 < INR (length t).
Proof.
  intros H. destruct t; [congruence|]. apply lt_0_INR. simpl. lia.
Qed.

Lemma mean_nonneg (t : list R) :
  t <> [] -> Forall (fun x => 0 <= x) t -> 0 <= Tensor.mean t.
Proof.
  intros Hne H. unfold Tensor.mean. pose proof (sum_nonneg t H).
  pose proof (INR_length_pos t Hne).
  apply Rmult_le_pos; [assumption|]. left. apply Rinv_0_lt_compat. assumption.
Qed.

Lemma argmax_from_map_mono (f : R -> R) (t : list R) (i best : nat) (bv : R) :
  (forall x y, x < y <-> f x < f y) ->
  Tensor.argmax_from i best (f bv) (map f t) = Tensor.argmax_from i best bv t.
Proof.
  intros Hf. revert i best bv. induction t as [|x t IH]; intros i best bv;
    [reflexivity|].
  simpl. destruct (Rlt_dec (f bv) (f x)) as [H|H], (Rlt_dec bv x) as [H'|H'].
  - apply IH.
  - exfalso. apply H'. apply (proj2 (Hf _ _)). exact H.
  - exfalso. apply H. apply (proj1 (Hf _ _)). exact H'.
  - apply IH.
Qed.

Lemma argmax_map_mono (f : R -> R) (t : list R) :
  (forall x y, x < y <-> f x < f y) ->
  Tensor.argmax (map f t) = Tensor.argmax t.
Proof.
  intros Hf. destruct t as [|x t]; [reflexivity|]. simpl.
  rewrite argmax_from_map_mono by exact Hf. reflexivity.
Qed.

End MeanFacts.

(** ** More on the dueling network *)

Section DuelingMore.

Local Open Scope R_scope.
Import DDDQN.

Context {State : Type}.

(** X3.  The mean over the actions of the Q-values of a state is the output of
    the value head: the centred advantages add up to zero. *)
Theorem dueling_mean_is_value (network : @DDDQN_Network State)
    (X : list State) (i : nat) (s : State) :
  X !! i = Some s ->
  advantage_stream network s <> [] ->
  exists q, forward network X !! i = Some q /\
            Tensor.sum (map (fun a => a - Tensor.mean (advantage_stream network s))
                          (advantage_stream network s)) = 0 /\
            Tensor.mean q = value_stream network s.
Proof.
  intros Hs Hne. eexists. split; [apply forward_row, Hs|].
  pose proof (INR_length_pos _ Hne) as Hpos.
  set (adv := advantage_stream network s) in *.
  assert (Hm : INR (length adv) * Tensor.mean adv = Tensor.sum adv).
  { unfold Tensor.mean. field. lra. }
  split.
  - pose proof (sum_map_affine 0 (Tensor.mean adv) adv) as H.
    rewrite (map_ext _ (fun a => 0 + (a - Tensor.mean adv)))
      by (intros; ring).
    rewrite H. lra.
  - unfold Tensor.mean at 1, combine.
    rewrite length_map, sum_map_affine. fold adv. field_simplify_eq; [|lra].
    rewrite <- Hm. ring.
Qed.

(** X4.  The action with the largest Q-value is the action with the largest
    advantage: the greedy choice does not depend on the value head. *)
Theorem dueling_argmax_is_advantage_argmax (network : @DDDQN_Network State)
    (X : list State) (i : nat) (s : State) :
  X !! i = Some s ->
  exists q, forward network X !! i = Some q /\
            Tensor.argmax q = Tensor.argmax (advantage_stream network s).
Proof.
  intros Hs. eexists. split; [apply forward_row, Hs|].
  unfold combine. apply argmax_map_mono. intros x y. lra.
Qed.

(** X5.  Shifting all advantages of a state by one constant, which may depend on
    the state, leaves the Q-values as they are. *)
Theorem dueling_advantage_shift (network network' : @DDDQN_Network State)
    (c : State -> R) (X : list State) :
  (forall s, value_stream network' s = value_stream network s) ->
  (forall s, advantage_stream network' s
             = map (fun a => a + c s) (advantage_stream network s)) ->
  forward network' X = forward network X.
Proof.
  intros Hv Ha. unfold forward, value, advantage.
  induction X as [|s X IH]; [reflexivity|]. simpl. f_equal; [|exact IH].
  rewrite Hv, Ha. unfold combine. rewrite map_map.
  destruct (advantage_stream network s) as [|a0 adv] eqn:Hadv; [reflexivity|].
  apply map_ext. intros a.
  assert (Hmean : Tensor.mean (map (fun a => a + c s) (a0 :: adv))
                  = Tensor.mean (a0 :: adv) + c s).
  { unfold Tensor.mean. rewrite length_map.
    pose proof (sum_map_affine (c s) 0 (a0 :: adv)) as H.
    rewrite (map_ext (fun a => a + c s) (fun a => c s + (a - 0)))
      by (intros; ring).
    rewrite H.
    pose proof (INR_length_pos (a0 :: adv)) as Hpos. field.
    assert (0 < INR (length (a0 :: adv))) by (apply Hpos; discriminate). lra. }
  rewrite Hmean. ring.
Qed.

End DuelingMore.

(** ** The loss of the dueling variant *)

Section LossFacts.

Local Open Scope R_scope.
Import Loss.

Lemma lookup_zip_with_inv {A B C} (f : A -> B -> C) (l : list A) (k : list B)
    (i : nat) (z : C) :
  zip_with f l k !! i = Some z ->
  exists x y, l !! i = Some x /\ k !! i = Some y /\ z = f x y.
Proof.
  rewrite lookup_zip_with. intros H.
  destruct (l !! i) as [x|]; [|discriminate]. simpl in H.
  destruct (k !! i) as [y|]; [|discriminate]. simpl in H.
  injection H as <-. eauto.
Qed.

Lemma sqr_Rabs (d : R) : Rabs d * Rabs d = d * d.
Proof. rewrite <- Rabs_mult. apply Rabs_pos_eq. nra. Qed.

(** X2.  The weighted squared loss of the dueling variant, on vectors of one
    length (at least one entry): the absolute errors it returns are
    [|q_target - q_values|] entry by entry; the loss is the mean of the
    weights times the squared absolute errors; it is not negative when no
    weight is, and it is zero, with all absolute errors zero, when the
    Q-values equal their targets. *)
Theorem DDDQN_compute_loss_spec (q_values q_target weights : list R) :
  length q_target = length q_values ->
  length weights = length q_values ->
  q_values <> [] ->
  exists loss absolute_error,
    DDDQN_compute_loss q_values q_target weights = Ok (loss, absolute_error) /\
    length absolute_error = length q_values /\
    (forall i q t, q_values !! i = Some q -> q_target !! i = Some t ->
       absolute_error !! i = Some (Rabs (t - q))) /\
    loss = Tensor.mean (zip_with (fun w e => w * (e * e)) weights absolute_error) /\
    (Forall (fun w => 0 <= w) weights -> 0 <= loss) /\
    (q_values = q_target -> loss = 0 /\ Forall (fun e => e = 0) absolute_error).
Proof.
  intros Ht Hw Hne. unfold DDDQN_compute_loss, Tensor.mul.
  rewrite !broadcast2_same_length by exact Ht. simpl.
  rewrite broadcast2_same_length by (rewrite length_zip_with; lia). simpl.
  do 2 eexists. split; [reflexivity|].
  assert (Hsq : zip_with Rmult weights
                  (zip_with (fun a b => (a - b) * (a - b)) q_target q_values)
                = zip_with (fun w e => w * (e * e)) weights
                    (map Rabs (zip_with Rminus q_target q_values))).
  { clear. revert q_target q_values.
    induction weights as [|w ws IH]; intros [|t ts] [|q qs]; simpl; try reflexivity.
    rewrite IH. f_equal. f_equal. symmetry. apply sqr_Rabs. }
  split; [rewrite length_map, length_zip_with; lia|]. split.
  { intros i q t Hq Hti. rewrite lookup_map, lookup_zip_with, Hti. simpl.
    rewrite Hq. reflexivity. }
  split; [rewrite Hsq; reflexivity|]. split.
  - intros Hpos. apply mean_nonneg.
    + destruct weights, q_target, q_values; simpl in *; congruence.
    + clear -Hpos. revert q_target q_values.
      induction Hpos as [|w ws Hw0 _ IH]; intros [|t ts] [|q qs]; simpl;
        constructor; auto.
      apply Rmult_le_pos; [exact Hw0 | apply (Rle_0_sqr (t - q))].
  - intros ->. split.
    + unfold Tensor.mean.
      assert (Hs : forall ws l,
        Tensor.sum (zip_with Rmult ws
                      (zip_with (fun a b => (a - b) * (a - b)) l l)) = 0).
      { intros ws l. revert ws. induction l as [|a l IH]; intros [|w ws];
          cbn [zip_with]; try reflexivity.
        rewrite sum_cons, IH. ring. }
      rewrite Hs. unfold Rdiv. ring.
    + clear. induction q_target as [|a l IH]; simpl; constructor; [|exact IH].
      replace (a - a) with 0 by ring. apply Rabs_R0.
Qed.

End LossFacts.

(** ** More on the policy of the DQN variant *)

Section DQNPolicyMore.

Local Open Scope R_scope.
Import DQN.

Context {State : Type}.

Lemma policy_fn_explicit (network : @DQN_Network State)
    (observation : State) (epsilon : R) :
  (0 < action_space network)%nat ->
  length (q_fun network observation) = action_space network ->
  exists best,
    Tensor.argmax (q_fun network observation) = Ok best /\
    (best < action_space network)%nat /\
    policy_fn network observation epsilon
    = Ok (<[best := 1 * epsilon / INR (action_space network) + (1 - epsilon)]>
            (replicate (action_space network)
               (1 * epsilon / INR (action_space network)))).
Proof.
  intros Hpos Hlen.
  assert (Hne : q_fun network observation <> []).
  { intros Hnil. rewrite Hnil in Hlen. simpl in Hlen. lia. }
  destruct (argmax_spec _ Hne) as (best & m & Hbest & Hm & _).
  assert (Hb : (best < action_space network)%nat).
  { rewrite <- Hlen. eapply lookup_lt_Some, Hm. }
  exists best. split; [exact Hbest|]. split; [exact Hb|].
  unfold policy_fn, forward. simpl. rewrite Hbest. simpl.
  rewrite lookup_replicate_2 by exact Hb. reflexivity.
Qed.

(** X6.  For an epsilon between 0 and 1 the vector returned by [policy_fn] holds
    probabilities: every entry lies between 0 and 1, and no action is more
    likely than the greedy one.  With epsilon = 0 the greedy action has
    probability 1 and every other action probability 0. *)
Theorem policy_fn_probabilities (network : @DQN_Network State)
    (observation : State) (epsilon : R) :
  (0 < action_space network)%nat ->
  length (q_fun network observation) = action_space network ->
  0 <= epsilon <= 1 ->
  exists A best,
    policy_fn network observation epsilon = Ok A /\
    Tensor.argmax (q_fun network observation) = Ok best /\
    (forall a p, A !! a = Some p -> 0 <= p <= 1) /\
    (forall a p pb, A !! a = Some p -> A !! best = Some pb -> p <= pb) /\
    (epsilon = 0 ->
       A !! best = Some 1 /\
       forall a p, a <> best -> A !! a = Some p -> p = 0).
Proof.
  intros Hpos Hlen Heps.
  destruct (policy_fn_explicit network observation epsilon Hpos Hlen)
    as (best & Hbest & Hb & HA).
  set (n := action_space network) in *.
  assert (Hn : 1 <= INR n) by (apply (le_INR 1); lia).
  assert (Hc : 0 <= 1 * epsilon / INR n <= epsilon).
  { assert (0 < / INR n <= 1).
    { split; [apply Rinv_0_lt_compat; lra|].
      rewrite <- Rinv_1. apply Rinv_le_contravar; lra. }
    unfold Rdiv. nra. }
  assert (Hlook : forall a p,
    <[best := 1 * epsilon / INR n + (1 - epsilon)]>
      (replicate n (1 * epsilon / INR n)) !! a = Some p ->
    (a = best /\ p = 1 * epsilon / INR n + (1 - epsilon)) \/
    (a <> best /\ p = 1 * epsilon / INR n)).
  { intros a p Hp. destruct (decide (a = best)) as [->|Hne].
    - rewrite list_lookup_insert_eq in Hp
        by (rewrite length_replicate; exact Hb).
      left. split; congruence.
    - rewrite list_lookup_insert_ne in Hp by congruence.
      apply lookup_replicate in Hp as [-> _]. right. split; congruence. }
  eexists _, best. split; [exact HA|]. split; [exact Hbest|].
  split; [|split].
  - intros a p Hp. destruct (Hlook a p Hp) as [[_ ->]|[_ ->]]; lra.
  - intros a p pb Hp Hpb.
    destruct (Hlook a p Hp) as [[_ ->]|[_ ->]],
             (Hlook best pb Hpb) as [[_ ->]|[Hx _]]; try congruence; lra.
  - intros ->. split.
    + rewrite list_lookup_insert_eq by (rewrite length_replicate; exact Hb).
      f_equal. unfold Rdiv. ring.
    + intros a p Hne Hp. destruct (Hlook a p Hp) as [[Ha _]|[_ ->]];
        [congruence|]. unfold Rdiv. ring.
Qed.

End DQNPolicyMore.

(** ** More on the epsilon schedule *)

Section EpsilonMore.

Local Open Scope R_scope.
Import DDDQN.

(** X9.  While [eps_start] exceeds [eps_end] and the decay rate is positive, the
    threshold decreases strictly from step to step and stays strictly
    above [eps_end]: the policy never stops exploring. *)
Theorem epsilon_strictly_decreasing (eps_end eps_start eps_decay : R) (s s' : Z) :
  eps_end < eps_start -> 0 < eps_decay -> (0 <= s < s')%Z ->
  eps_end < eps_threshold eps_end eps_start eps_decay s'
  /\ eps_threshold eps_end eps_start eps_decay s'
     < eps_threshold eps_end eps_start eps_decay s.
Proof.
  intros He Hd [Hs Hss]. rewrite !eps_threshold_formula.
  pose proof (exp_pos (- eps_decay * IZR s')) as Hpos.
  assert (Hlt : exp (- eps_decay * IZR s') < exp (- eps_decay * IZR s)).
  { apply exp_increasing. apply IZR_lt in Hss. nra. }
  split; nra.
Qed.

(** X10.  The threshold tends to [eps_end]: it comes closer to it than any given
    distance from some step on. *)
Theorem epsilon_tends_to_end (eps_end eps_start eps_decay delta : R) :
  eps_end <= eps_start -> 0 < eps_decay -> 0 < delta ->
  exists N : Z, (0 <= N)%Z /\
    forall s, (N <= s)%Z ->
      eps_end <= eps_threshold eps_end eps_start eps_decay s < eps_end + delta.
Proof.
  intros He Hd Hdelta.
  set (D := eps_start - eps_end).
  set (x := D / (delta * eps_decay)).
  assert (Hx : 0 <= x).
  { unfold x, D. apply Rmult_le_pos; [lra|].
    left. apply Rinv_0_lt_compat. nra. }
  destruct (archimed x) as [Hup _].
  exists (up x). split.
  { apply le_IZR. lra. }
  intros s Hs. rewrite eps_threshold_formula. fold D.
  apply IZR_le in Hs.
  assert (Hspos : 0 < IZR s) by lra.
  pose proof (exp_pos (- eps_decay * IZR s)) as Hpos.
  split; [unfold D; nra|].
  assert (Hexp : exp (- eps_decay * IZR s) < / (1 + eps_decay * IZR s)).
  { replace (- eps_decay * IZR s) with (- (eps_decay * IZR s)) by ring.
    rewrite exp_Ropp. apply Rinv_lt_contravar.
    - apply Rmult_lt_0_compat; [nra | apply exp_pos].
    - apply exp_ineq1. nra. }
  assert (Hden : 0 < 1 + eps_decay * IZR s) by nra.
  assert (Hbound : D * / (1 + eps_decay * IZR s) <= delta).
  { apply (Rmult_le_reg_r (1 + eps_decay * IZR s)); [exact Hden|].
    rewrite Rmult_assoc, Rinv_l by lra. rewrite Rmult_1_r.
    assert (Hx' : D = x * (delta * eps_decay)).
    { unfold x. field. split; lra. }
    assert (Hdd : 0 < delta * eps_decay) by nra.
    assert (x * (delta * eps_decay) <= IZR s * (delta * eps_decay))
      by (apply Rmult_le_compat_r; lra).
    clearbody x D. nra. }
  destruct (Rle_lt_or_eq_dec 0 D) as [HD|HD]; [unfold D; lra| |].
  - assert (D * exp (- eps_decay * IZR s) < D * / (1 + eps_decay * IZR s))
      by (apply Rmult_lt_compat_l; assumption).
    lra.
  - rewrite <- HD. lra.
Qed.

End EpsilonMore.

(** ** More on the TD target *)

Section TDTargetMore.

Local Open Scope R_scope.
Import Train.





Lemma max_value_mono (t u : list R) (m m' : R) :
  Forall2 Rle t u -> Tensor.max_value t = Ok m -> Tensor.max_value u = Ok m' ->
  m <= m'.
Proof.
  intros H. revert m m'. induction H as [|x y t u Hxy Htu IH]; intros m m' Hm Hm';
    [discriminate|].
  destruct Htu as [|x2 y2 t u Hxy2 Htu].
  - simpl in Hm, Hm'. injection Hm as <-. injection Hm' as <-. exact Hxy.
  - change (Tensor.max_value (x :: x2 :: t))
      with (let* m := Tensor.max_value (x2 :: t) in Ok (Rmax x m)) in Hm.
    change (Tensor.max_value (y :: y2 :: u))
      with (let* m := Tensor.max_value (y2 :: u) in Ok (Rmax y m)) in Hm'.
    apply rbind_Ok in Hm as (a & Ha & [= <-]).
    apply rbind_Ok in Hm' as (b & Hb & [= <-]).
    specialize (IH a b Ha Hb).
    apply Rmax_lub.
    + etransitivity; [exact Hxy | apply Rmax_l].
    + etransitivity; [exact IH | apply Rmax_r].
Qed.

(** X13.  With a discount factor that is not negative and done flags between 0
    and 1, the targets grow with the values of the target network: if no
    value of the target network decreases, no target does.  Every target
    lies between the reward and the reward plus the discounted maximum
    when that maximum is not negative. *)
Theorem td_target_monotone (discount_factor : R) (reward_batch done_batch : list R)
    (t_forward t_forward' : list (list R)) (t_values t_values' : list R) :
  0 <= discount_factor ->
  Forall (fun d => 0 <= d <= 1) done_batch ->
  length done_batch = length reward_batch ->
  length t_forward = length reward_batch ->
  Forall2 (Forall2 Rle) t_forward t_forward' ->
  td_target discount_factor reward_batch done_batch t_forward = Ok t_values ->
  td_target discount_factor reward_batch done_batch t_forward' = Ok t_values' ->
  Forall2 Rle t_values t_values' /\
  forall i r row m y,
    reward_batch !! i = Some r -> t_forward !! i = Some row ->
    Tensor.max_value row = Ok m -> 0 <= m -> t_values !! i = Some y ->
    r <= y <= r + discount_factor * m.
Proof.
  intros Hg Hd Hld Hlt Hle Ht Ht'.
  pose proof (Forall2_length _ _ _ Hle) as Hlen'.
  unfold td_target in Ht, Ht'.
  apply rbind_Ok in Ht as (ms & Hms & Ht).
  apply rbind_Ok in Ht' as (ms' & Hms' & Ht').
  assert (Hrows : forall t ms, Tensor.max_dim1 t = Ok ms ->
            length ms = length t /\
            forall i row, t !! i = Some row ->
              exists m, Tensor.max_value row = Ok m /\ ms !! i = Some m).
  { clear. induction t as [|row t IH]; intros ms H; simpl in H.
    - injection H as <-. split; [reflexivity|]. intros i row Hi. discriminate.
    - apply rbind_Ok in H as (m & Hm & H).
      apply rbind_Ok in H as (ms' & Hms' & [= <-]).
      destruct (IH ms' Hms') as (Hl & Hk). split; [simpl; congruence|].
      intros [|i] r Hi; simpl in *; [injection Hi as <-; eauto | eauto]. }
  destruct (Hrows _ _ Hms) as (Hl & Hk).
  destruct (Hrows _ _ Hms') as (Hl' & Hk').
  unfold Tensor.mul, Tensor.add in Ht, Ht'.
  rewrite broadcast2_same_length in Ht by (rewrite length_rsub_scalar; lia).
  rewrite broadcast2_same_length in Ht' by (rewrite length_rsub_scalar; lia).
  simpl in Ht, Ht'.
  rewrite broadcast2_same_length in Ht
    by (rewrite length_mul_scalar, length_zip_with, length_rsub_scalar; lia).
  rewrite broadcast2_same_length in Ht'
    by (rewrite length_mul_scalar, length_zip_with, length_rsub_scalar; lia).
  injection Ht as <-. injection Ht' as <-.
  assert (Hval : forall ms0 i y,
    zip_with Rplus reward_batch
      (Tensor.mul_scalar discount_factor
         (zip_with Rmult (Tensor.rsub_scalar 1 done_batch) ms0)) !! i = Some y ->
    exists r d m, reward_batch !! i = Some r /\ done_batch !! i = Some d /\
                  ms0 !! i = Some m /\ y = r + discount_factor * ((1 - d) * m)).
  { intros ms0 i y Hy.
    apply lookup_zip_with_inv in Hy as (r & z & Hr & Hz & ->).
    unfold Tensor.mul_scalar, Tensor.rsub_scalar in Hz.
    rewrite lookup_map in Hz.
    destruct (zip_with Rmult (map (fun x => 1 - x) done_batch) ms0 !! i)
      as [w|] eqn:Hw; [|discriminate].
    injection Hz as <-.
    apply lookup_zip_with_inv in Hw as (e & m & He & Hm & ->).
    rewrite lookup_map in He.
    destruct (done_batch !! i) as [d|] eqn:Hdi; [|discriminate].
    injection He as <-. exists r, d, m. auto. }
  split.
  - apply Forall2_same_length_lookup. split.
    { rewrite !length_zip_with, !length_mul_scalar, !length_zip_with,
        !length_rsub_scalar. lia. }
    intros i y y' Hy Hy'.
    destruct (Hval _ _ _ Hy) as (r & d & m & Hr & Hdi & Hm & ->).
    destruct (Hval _ _ _ Hy') as (r' & d' & m' & Hr' & Hdi' & Hm' & ->).
    assert (r' = r) as -> by congruence. assert (d' = d) as -> by congruence.
    pose proof (Forall_lookup_1 _ _ _ _ Hd Hdi) as Hd01. simpl in Hd01.
    assert (Hmm : m <= m').
    { destruct (lookup_lt_is_Some_2 t_forward i) as [row Hrow].
      { rewrite <- Hl. eapply lookup_lt_Some, Hm. }
      destruct (lookup_lt_is_Some_2 t_forward' i) as [row' Hrow'].
      { rewrite <- Hl'. eapply lookup_lt_Some, Hm'. }
      destruct (Hk _ _ Hrow) as (a & Ha & Hai).
      destruct (Hk' _ _ Hrow') as (b & Hb & Hbi).
      assert (a = m) as -> by congruence. assert (b = m') as -> by congruence.
      eapply max_value_mono; [|exact Ha|exact Hb].
      eapply Forall2_lookup_lr; eassumption. }
    apply Rplus_le_compat_l, Rmult_le_compat_l; [lra|].
    apply Rmult_le_compat_l; lra.
  - intros i r row m y Hr Hrow Hmax Hm0 Hy.
    destruct (Hval _ _ _ Hy) as (r' & d & m' & Hr' & Hdi & Hm' & ->).
    assert (r' = r) as -> by congruence.
    destruct (Hk _ _ Hrow) as (a & Ha & Hai).
    assert (a = m) as -> by congruence. assert (m' = m) as -> by congruence.
    pose proof (Forall_lookup_1 _ _ _ _ Hd Hdi) as Hd01. simpl in Hd01.
    assert (H1 : 0 <= (1 - d) * m <= m) by nra.
    nra.
Qed.

End TDTargetMore.

(** ** More on the rounds of the training loop *)

Section LoopMore.

Local Open Scope R_scope.
Import Train Params Observe Episode.

Context {RawFrame Frame World OptState : Type}.
Variable setup : @Setup RawFrame Frame World OptState.

Abbreviation LoopM := (@Loop Frame World OptState).

Lemma interact_stats (l l1 : LoopM) (tr : Transition Frame) (d : bool) :
  interact setup l = Ok (l1, (tr, d)) ->
  episode_rewards l1 = episode_rewards l /\
  episode_lengths l1 = episode_lengths l.
Proof.
  unfold interact. intros H.
  apply rbind_Ok in H as (ps & _ & H).
  apply rbind_Ok in H as ([w1 [a eps]] & _ & H).
  destruct (env_step setup w1 a) as [w2 [[raw rew] d']].
  injection H as <- <- <-. auto.
Qed.

Lemma update_stats (l l' : LoopM) :
  update setup l = Ok l' ->
  episode_lengths l' = episode_lengths l /\
  exists batch, trace l' = EvUpdate batch :: trace l.
Proof.
  unfold update. destruct (sample_draws setup (world l)) as [w draws].
  intros H.
  apply rbind_Ok in H as (batch & Hb & H).
  apply rbind_Ok in H as (tf & _ & H).
  apply rbind_Ok in H as (tv & _ & H).
  apply rbind_Ok in H as (ps & _ & H).
  destruct (opt_step setup (opt l) ps _) as [o ps'].
  injection H as <-. simpl. eauto.
Qed.

(** What one round of the main loop leaves behind. *)
Lemma body_effect (t : Z) (l l' : LoopM) (d : bool) :
  body setup t l = Ok (l', d) ->
  exists tr batch,
    trace l' = EvUpdate batch :: EvAdd tr :: EvEnvStep (action tr)
                 :: EvPolicy (cur_state l) (GLOBAL_STEP l) :: trace l /\
    state tr = cur_state l /\
    (exists f, next_state tr = slide (cur_state l) f) /\
    done tr = float_of_bool d /\
    cur_state l' = (if d then cur_state l else next_state tr) /\
    GLOBAL_STEP l' = (if d then GLOBAL_STEP l else GLOBAL_STEP l + 1)%Z /\
    episode_rewards l' = episode_rewards l + reward tr /\
    episode_lengths l' = t /\
    i_episode l' = i_episode l /\
    replay_memory l' = add tr (replay_memory l).
Proof.
  intros H.
  destruct (body_spec setup _ _ _ _ H) as (l1 & tr & h & l5 & Hi & _ & Hu & ->).
  destruct (interact_spec setup _ _ _ _ Hi)
    as (Hc & Hm & _ & Hgs & _ & Hie & Hst & Hnx & Hdn & Htr).
  destruct (interact_stats _ _ _ _ Hi) as (Hr & _).
  destruct (update_spec setup _ _ Hu)
    as (Hc5 & Hm5 & Hgs5 & Hie5 & Hr5 & draws & batch & ps' & _ & Ht5 & _).
  destruct (update_stats _ _ Hu) as (Hl5 & _).
  simpl in Hc5, Hm5, Hgs5, Hie5, Hr5, Ht5, Hl5.
  exists tr, batch.
  destruct d; simpl; rewrite ?Ht5, ?Htr, ?Hc5, ?Hgs5, ?Hr5, ?Hl5, ?Hie5, ?Hm5,
    ?Hc, ?Hgs, ?Hr, ?Hie, ?Hm; repeat split; auto.
Qed.

(** What one round of the warm-up loop leaves behind. *)
Lemma populate_step_effect (l l' : LoopM) :
  populate_step setup l = Ok l' ->
  exists tr d,
    trace l' = EvAdd tr :: EvEnvStep (action tr)
                 :: EvPolicy (cur_state l) (GLOBAL_STEP l) :: trace l /\
    state tr = cur_state l /\
    (exists f, next_state tr = slide (cur_state l) f) /\
    done tr = float_of_bool d /\
    (if d then exists f, cur_state l' = stack4 f
     else cur_state l' = next_state tr) /\
    GLOBAL_STEP l' = (GLOBAL_STEP l + 1)%Z /\
    heap l' = heap l /\ opt l' = opt l /\ i_episode l' = i_episode l /\
    replay_memory l' = add tr (replay_memory l).
Proof.
  intros H.
  destruct (populate_step_spec setup _ _ H) as (l1 & tr & d & l3 & Hi & -> & ->).
  destruct (interact_spec setup _ _ _ _ Hi)
    as (Hc & Hm & Hh & Hgs & Ho & Hie & Hst & Hnx & Hdn & Htr).
  exists tr, d. cbv zeta. destruct d.
  - destruct (reset_state_spec setup
                (emit (EvAdd tr)
                   (set_replay_memory (add tr (replay_memory l1)) l1)))
      as (w & f & -> & _).
    simpl. rewrite Htr, Hgs, Hh, Ho, Hie, Hm. repeat split; eauto.
  - simpl. rewrite Htr, Hgs, Hh, Ho, Hie, Hm. repeat split; eauto.
Qed.

Lemma added_cons_add (x : Transition Frame) (tr : list (@Event Frame)) :
  added (EvAdd x :: tr) = x :: added tr.
Proof. reflexivity. Qed.

(** X14.  The warm-up loop of lines 65-95 only interacts and stores: [n] rounds
    make [n] calls of [env.step], add [n] transitions and advance
    GLOBAL_STEP by [n]; no batch is sampled, no optimizer step is taken,
    no episode is yielded, and the parameters of both networks and the
    state of the optimizer are left as they were. *)
Theorem warm_up_only_collects (n : nat) (l l' : LoopM) :
  populate setup n l = Ok l' ->
  heap l' = heap l /\ opt l' = opt l /\
  updates (trace l') = updates (trace l) /\
  yields (trace l') = yields (trace l) /\
  env_steps (trace l') = (env_steps (trace l) + n)%nat /\
  length (added (trace l')) = (length (added (trace l)) + n)%nat /\
  GLOBAL_STEP l' = (GLOBAL_STEP l + Z.of_nat n)%Z.
Proof.
  revert l. induction n as [|n IH]; intros l H; simpl in H.
  - injection H as <-. repeat split; lia.
  - apply rbind_Ok in H as (l1 & H1 & H).
    destruct (populate_step_effect _ _ H1)
      as (tr & d & Htr & _ & _ & _ & _ & Hgs & Hh & Ho & _).
    destruct (IH _ H) as (Hh' & Ho' & Hu & Hy & He & Ha & Hg).
    rewrite Hh', Ho', Hu, Hy, He, Ha, Hg, Htr, Hh, Ho, Hgs.
    unfold updates, yields, env_steps. simpl. repeat split; lia.
Qed.

Lemma populate_i_episode (n : nat) (l l' : LoopM) :
  populate setup n l = Ok l' -> i_episode l' = i_episode l.
Proof.
  revert l. induction n as [|n IH]; intros l H; simpl in H.
  - injection H as <-. reflexivity.
  - apply rbind_Ok in H as (l1 & H1 & H).
    destruct (populate_step_effect _ _ H1)
      as (tr & d & _ & _ & _ & _ & _ & _ & _ & _ & Hie & _).
    rewrite (IH _ H). exact Hie.
Qed.

Lemma main_loop_counts (fuel : nat) (t : Z) (l l' : LoopM) :
  main_loop setup fuel t l = Ok l' ->
  updates (trace l') = (updates (trace l) + fuel)%nat /\
  env_steps (trace l') = (env_steps (trace l) + fuel)%nat /\
  length (added (trace l')) = (length (added (trace l)) + fuel)%nat /\
  (yields (trace l) <= yields (trace l') <= yields (trace l) + fuel)%nat /\
  (i_episode l' - Z.of_nat (yields (trace l'))
   = i_episode l - Z.of_nat (yields (trace l)))%Z /\
  (GLOBAL_STEP l' + Z.of_nat (yields (trace l'))
   = GLOBAL_STEP l + Z.of_nat (yields (trace l)) + Z.of_nat fuel)%Z.
Proof.
  revert t l. induction fuel as [|fuel IH]; intros t l H; simpl in H.
  - injection H as <-. repeat split; lia.
  - apply rbind_Ok in H as ([l1 d] & Hb & H). simpl in H.
    destruct (body_effect _ _ _ _ Hb)
      as (tr & batch & Htr & _ & _ & _ & _ & Hgs & _ & _ & Hie & _).
    destruct d.
    + destruct (IH _ _ H) as (Hu & He & Ha & Hy & Hi & Hg).
      unfold episode_start in Hu, He, Ha, Hy, Hi, Hg.
      destruct (reset_state_spec setup (episode_end l1)) as (w & f & Hrs & _).
      rewrite Hrs in Hu, He, Ha, Hy, Hi, Hg. simpl in Hu, He, Ha, Hy, Hi, Hg.
      rewrite Htr in Hu, He, Ha, Hy, Hi, Hg.
      unfold updates, yields, env_steps in *. simpl in *.
      rewrite Hie in Hi. rewrite Hgs in Hg. repeat split; lia.
    + destruct (IH _ _ H) as (Hu & He & Ha & Hy & Hi & Hg).
      rewrite Htr in Hu, He, Ha, Hy, Hi, Hg.
      unfold updates, yields, env_steps in *. simpl in *.
      rewrite Hie in Hi. rewrite Hgs in Hg. repeat split; lia.
Qed.

(** X15.  A call of [work] that finds the global counter at [g] and has gone
    through [fuel] rounds of the main loop after its warm-up: every round
    of either loop calls [env.step] once and adds one transition, every
    round of the main loop takes exactly one optimizer step, the episode
    counter is the number of episodes yielded, which is at most the number
    of rounds of the main loop, and GLOBAL_STEP has grown from [g] by the
    number of calls of [env.step] less the number of episodes yielded. *)
Theorem work_counts (g : Z) (fuel : nat) (w : World) (h : Store) (o : OptState)
    (l : LoopM) :
  work_from setup g fuel w h o = Ok l ->
  env_steps (trace l) = (replay_memory_init_size (args setup) + fuel)%nat /\
  length (added (trace l)) = (replay_memory_init_size (args setup) + fuel)%nat /\
  updates (trace l) = fuel /\
  (yields (trace l) <= fuel)%nat /\
  i_episode l = Z.of_nat (yields (trace l)) /\
  GLOBAL_STEP l
  = (g + Z.of_nat (replay_memory_init_size (args setup) + fuel)
     - Z.of_nat (yields (trace l)))%Z.
Proof.
  intros H. unfold work_from in H. apply rbind_Ok in H as (l1 & Hp & H).
  destruct (warm_up_only_collects _ _ _ Hp) as (_ & _ & Hu & Hy & He & Ha & Hg).
  pose proof (populate_i_episode _ _ _ Hp) as Hie1.
  destruct (reset_state_spec setup (initial_from setup g w h o))
    as (w0 & f0 & Hr0 & _).
  rewrite Hr0 in Hu, Hy, He, Ha, Hg, Hie1.
  simpl in Hu, Hy, He, Ha, Hg, Hie1.
  destruct (main_loop_counts _ _ _ _ H) as (Hu' & He' & Ha' & Hy' & Hi' & Hg').
  unfold episode_start in Hu', He', Ha', Hy', Hi', Hg'.
  destruct (reset_state_spec setup l1) as (w1 & f1 & Hr1 & _).
  rewrite Hr1 in Hu', He', Ha', Hy', Hi', Hg'.
  simpl in Hu', He', Ha', Hy', Hi', Hg'.
  unfold updates, yields, env_steps in *. simpl in *.
  repeat split; lia.
Qed.

(** X16.  A period of synchronisation of 0 stops the main loop in its first
    round: once the policy has answered and the environment has stepped,
    [GLOBAL_STEP % 0] raises ZeroDivisionError, before the transition is
    stored. *)
Theorem zero_period_raises (t : Z) (l l1 : LoopM) (tr : Transition Frame)
    (d : bool) :
  update_target_estimator_every (args setup) = 0%Z ->
  interact setup l = Ok (l1, (tr, d)) ->
  body setup t l = Raise ZeroDivisionError /\
  forall fuel, main_loop setup (S fuel) t l = Raise ZeroDivisionError.
Proof.
  intros H0 Hi.
  assert (Hb : body setup t l = Raise ZeroDivisionError).
  { unfold body. rewrite Hi. simpl. unfold sync_target, sync_due.
    rewrite H0. reflexivity. }
  split; [exact Hb|]. intros fuel. simpl. rewrite Hb. reflexivity.
Qed.

(** X17.  Between synchronisations the target network is frozen: a round of the
    main loop whose GLOBAL_STEP is not a multiple of the period leaves the
    parameters of the target network as they were; a round whose
    GLOBAL_STEP is a multiple leaves in them the parameters that the
    online network had when the round began, whatever the update of the
    same round does to the online network. *)
Theorem target_changes_only_on_sync (t : Z) (l l' : LoopM) (d : bool) :
  NoDup (t_network setup) ->
  (forall x, x ∈ t_network setup -> x ∉ q_network setup) ->
  body setup t l = Ok (l', d) ->
  ((GLOBAL_STEP l mod update_target_estimator_every (args setup) <> 0)%Z ->
     parameters (heap l') (t_network setup)
     = parameters (heap l) (t_network setup)) /\
  ((GLOBAL_STEP l mod update_target_estimator_every (args setup) = 0)%Z ->
     parameters (heap l') (t_network setup)
     = parameters (heap l) (q_network setup)).
Proof.
  intros Hnd Hdis H.
  destruct (body_spec setup _ _ _ _ H) as (l1 & tr & h & l5 & Hi & Hs & Hu & ->).
  destruct (update_spec setup _ _ Hu)
    as (_ & _ & _ & _ & _ & draws & batch & ps' & _ & _ & Hh5).
  simpl in Hh5.
  assert (Hheap : heap (if d then l5
                        else set_GLOBAL_STEP (GLOBAL_STEP l5 + 1)
                               (set_state (next_state tr) l5)) = heap l5)
    by (destruct d; reflexivity).
  rewrite Hheap, Hh5.
  assert (Hkeep : parameters (assign (q_network setup) ps' h) (t_network setup)
                  = parameters h (t_network setup)).
  { apply parameters_same. intros x Hx. apply assign_other. exact (Hdis x Hx). }
  rewrite Hkeep.
  unfold sync_target, sync_due in Hs.
  destruct (decide (update_target_estimator_every (args setup) = 0%Z));
    [discriminate|].
  simpl in Hs. split.
  - intros Hmod. apply Z.eqb_neq in Hmod. rewrite Hmod in Hs.
    injection Hs as <-. reflexivity.
  - intros Hmod. apply Z.eqb_eq in Hmod. rewrite Hmod in Hs.
    destruct (load_state_dict_spec _ _ _ _ Hs Hnd Hdis) as (Hlen & _ & Hcopy).
    apply parameters_ext; [exact Hlen|]. exact Hcopy.
Qed.

End LoopMore.

(** ** The transitions of a run and the statistics of an episode *)

Section Trajectories.

Local Open Scope R_scope.
Import Train Params Observe Episode.

Context {RawFrame Frame World OptState : Type}.
Variable setup : @Setup RawFrame Frame World OptState.

Abbreviation LoopJ := (@Loop Frame World OptState).

Lemma float_of_bool_cases (d : bool) :
  (float_of_bool d = 0 \/ float_of_bool d = 1) /\
  (float_of_bool d = 1 -> d = true).
Proof. destruct d; simpl; split; auto; intros; lra. Qed.

Lemma chain_extend (l : LoopJ) (tr : Transition Frame) (d : bool) :
  chain_inv l -> tail_ok l ->
  state tr = cur_state l ->
  (exists f, next_state tr = slide (cur_state l) f) ->
  done tr = float_of_bool d ->
  chained (tr :: added (trace l)) /\ Forall well_built (tr :: added (trace l)).
Proof.
  intros [Hch Hwb] Htail Hst [f Hnx] Hdn. split.
  - unfold tail_ok in Htail. destruct (added (trace l)) as [|last rest];
      [exact I|].
    split; [|exact Hch]. unfold follows. rewrite Hst. exact Htail.
  - constructor; [|exact Hwb]. split.
    + rewrite Hdn. apply float_of_bool_cases.
    + exists f. rewrite Hst. exact Hnx.
Qed.

Lemma chain_reset (l : LoopJ) :
  chain_inv l -> chain_inv (reset_state setup l) /\ tail_ok (reset_state setup l).
Proof.
  intros Hc. destruct (reset_state_spec setup l) as (w & f & -> & _).
  split; [exact Hc|]. unfold tail_ok. simpl.
  destruct (added (trace l)); [exact I|]. split; eauto.
Qed.

Lemma chain_populate_step (l l' : LoopJ) :
  chain_inv l -> tail_ok l -> populate_step setup l = Ok l' ->
  chain_inv l' /\ tail_ok l'.
Proof.
  intros Hc Ht H.
  destruct (populate_step_effect setup _ _ H)
    as (tr & d & Htr & Hst & Hnx & Hdn & Hcur & _).
  destruct (chain_extend l tr d Hc Ht Hst Hnx Hdn) as [Hch Hwb].
  unfold chain_inv, tail_ok. rewrite Htr. simpl. split; [split; assumption|].
  destruct d.
  - destruct Hcur as [f Hf]. split; eauto.
  - split; [left; exact Hcur|]. rewrite Hdn. simpl. intros; lra.
Qed.

Lemma chain_populate (n : nat) (l l' : LoopJ) :
  chain_inv l -> tail_ok l -> populate setup n l = Ok l' ->
  chain_inv l' /\ tail_ok l'.
Proof.
  revert l. induction n as [|n IH]; intros l Hc Ht H; simpl in H.
  - injection H as <-. auto.
  - apply rbind_Ok in H as (l1 & H1 & H).
    destruct (chain_populate_step _ _ Hc Ht H1) as [Hc1 Ht1]. eauto.
Qed.

Lemma chain_body (t : Z) (l l' : LoopJ) (d : bool) :
  chain_inv l -> tail_ok l -> body setup t l = Ok (l', d) ->
  chain_inv l' /\ (d = false -> tail_ok l').
Proof.
  intros Hc Ht H.
  destruct (body_effect setup _ _ _ _ H)
    as (tr & batch & Htr & Hst & Hnx & Hdn & Hcur & _).
  destruct (chain_extend l tr d Hc Ht Hst Hnx Hdn) as [Hch Hwb].
  unfold chain_inv, tail_ok. rewrite Htr. simpl. split; [split; assumption|].
  intros ->. split; [left; exact Hcur|]. rewrite Hdn. simpl. intros; lra.
Qed.

Lemma chain_main_loop (fuel : nat) (t : Z) (l l' : LoopJ) :
  chain_inv l -> tail_ok l -> main_loop setup fuel t l = Ok l' -> chain_inv l'.
Proof.
  revert t l. induction fuel as [|fuel IH]; intros t l Hc Ht H; simpl in H.
  - injection H as <-. exact Hc.
  - apply rbind_Ok in H as ([l1 d] & Hb & H). simpl in H.
    destruct (chain_body _ _ _ _ Hc Ht Hb) as [Hc1 Ht1].
    destruct d.
    + assert (Hce : chain_inv (episode_end l1)) by exact Hc1.
      destruct (chain_reset _ Hce) as [Hcr Htr].
      eapply IH; [| |exact H]; assumption.
    + eapply IH; [| |exact H]; auto.
Qed.

(** X18.  The transitions that a run of [work] hands to the replay memory, in
    the order of their insertion.  Each carries a done flag of 0 or 1 and
    a next state that is its state slid by one frame.  Each starts either
    where its predecessor ended or on a fresh window of four copies of one
    frame, and on a fresh window whenever the predecessor was terminal. *)
Theorem transitions_chain (fuel : nat) (w : World) (h : Store) (o : OptState)
    (l : LoopJ) :
  work setup fuel w h o = Ok l ->
  chained (added (trace l)) /\ Forall well_built (added (trace l)).
Proof.
  intros H. unfold work, work_from in H. apply rbind_Ok in H as (l1 & Hp & H).
  assert (H0 : chain_inv (initial setup w h o)) by (split; simpl; constructor).
  destruct (chain_reset _ H0) as [Hc0 Ht0].
  destruct (chain_populate _ _ _ Hc0 Ht0 Hp) as [Hc1 _].
  destruct (chain_reset _ Hc1) as [Hc2 Ht2].
  exact (chain_main_loop _ _ (episode_start setup l1) _ Hc2 Ht2 H).
Qed.

Lemma sum_app (t u : list R) : Tensor.sum (t ++ u) = Tensor.sum t + Tensor.sum u.
Proof.
  induction t as [|x t IH]; cbn [app].
  - change (Tensor.sum u = 0 + Tensor.sum u). ring.
  - rewrite !sum_cons, IH. ring.
Qed.

(** X19.  An episode of the main loop that ends after [n] rounds, started with
    the step counter [t]: it adds [n] transitions, the last of them
    terminal; the statistics it leaves for the [yield] are the rewards
    accumulated on top of those at its start and, as its length, the
    counter of its last round, [t + n - 1]; GLOBAL_STEP has advanced by
    [n - 1]; and the main loop goes on from the start of the next
    episode. *)
Theorem episode_statistics (fuel : nat) (t : Z) (l l' : LoopJ) :
  run_episode setup fuel t l = Ok (l', true) ->
  exists n new last,
    (1 <= n <= fuel)%nat /\ length new = n /\
    added (trace l') = new ++ added (trace l) /\
    head new = Some last /\ done last = 1 /\
    episode_lengths l' = (t + Z.of_nat n - 1)%Z /\
    episode_rewards l' = episode_rewards l + Tensor.sum (map reward new) /\
    GLOBAL_STEP l' = (GLOBAL_STEP l + Z.of_nat n - 1)%Z /\
    forall k, main_loop setup (n + k) t l
              = main_loop setup k 0 (episode_start setup (episode_end l')).
Proof.
  revert t l. induction fuel as [|fuel IH]; intros t l H; simpl in H;
    [discriminate|].
  apply rbind_Ok in H as ([l1 d] & Hb & H). simpl in H.
  destruct (body_effect setup _ _ _ _ Hb)
    as (tr & batch & Htr & _ & _ & Hdn & _ & Hgs & Hrw & Hlen & _).
  destruct d.
  - injection H as <-. exists 1%nat, [tr], tr.
    split; [lia|]. split; [reflexivity|].
    split; [rewrite Htr; reflexivity|].
    split; [reflexivity|]. split; [exact Hdn|]. split; [lia|].
    split.
    { rewrite Hrw. change (Tensor.sum (map reward [tr])) with (reward tr + 0).
      ring. }
    split; [lia|].
    intros k. cbn [Nat.add main_loop]. rewrite Hb. reflexivity.
  - destruct (IH _ _ H)
      as (n & new & last & Hn & Hnew & Hadd & Hhd & Hlast & Hl & Hr & Hg & Hk).
    exists (S n), (new ++ [tr]), last.
    split; [lia|]. split; [rewrite length_app; simpl; lia|].
    split.
    { rewrite Hadd, Htr. simpl. rewrite <- app_assoc. reflexivity. }
    split.
    { destruct new; [simpl in Hnew; lia | exact Hhd]. }
    split; [exact Hlast|]. split; [lia|]. split.
    { rewrite Hr, Hrw, map_app, sum_app.
      change (Tensor.sum (map reward [tr])) with (reward tr + 0). ring. }
    split; [lia|].
    intros k. cbn [Nat.add main_loop]. rewrite Hb. simpl. apply Hk.
Qed.

End Trajectories.

(** ** Reading and writing the parameters in the store *)

Section Progress.

Local Open Scope R_scope.
Import Params.

Lemma parameters_lookup (h : Store) (net : Net) (ps : list (list R)) :
  parameters h net = Ok ps ->
  length ps = length net /\
  forall i l, net !! i = Some l -> h !! l = ps !! i.
Proof.
  revert ps. induction net as [|x net IH]; intros ps H; simpl in H.
  - injection H as <-. split; [reflexivity|]. intros i l Hi. discriminate.
  - destruct (h !! x) as [v|] eqn:Hx; [|discriminate].
    apply rbind_Ok in H as (vs & Hvs & [= <-]).
    destruct (IH _ Hvs) as [Hlen Hlk]. split; [simpl; congruence|].
    intros [|i] l Hi; simpl in *; [congruence | auto].
Qed.

Lemma assign_lookup (net : Net) (vs : list (list R)) (h : Store)
    (i l : nat) (v : list R) :
  NoDup net -> net !! i = Some l -> vs !! i = Some v ->
  assign net vs h !! l = Some v.
Proof.
  revert vs h i. induction net as [|x net IH]; intros [|v0 vs] h [|i] Hnd Hl Hv;
    simpl in *; try discriminate.
  - injection Hl as ->. injection Hv as ->.
    apply NoDup_cons in Hnd as [Hnotin _].
    rewrite assign_other by exact Hnotin. apply lookup_insert_eq.
  - apply NoDup_cons in Hnd as [_ Hnd]. eapply IH; eassumption.
Qed.

End Progress.

(** ** Clipping of the gradients *)

Section Clip.

Local Open Scope R_scope.
Import Optim.

Lemma concat_map_map {A B} (f : A -> B) (g : list (list A)) :
  concat (map (map f) g) = map f (concat g).
Proof.
  induction g as [|x g IH]; [reflexivity|].
  simpl. rewrite IH, map_app. reflexivity.
Qed.

Lemma sum_squares_scale (c : R) (t : list R) :
  Tensor.sum (map (fun g => g * g) (map (fun x => c * x) t))
  = c * c * Tensor.sum (map (fun g => g * g) t).
Proof.
  induction t as [|x t IH].
  - change (0 = c * c * 0). ring.
  - cbn [map]. rewrite !sum_cons, IH. ring.
Qed.

Lemma sum_squares_nonneg (t : list R) :
  0 <= Tensor.sum (map (fun g => g * g) t).
Proof.
  apply sum_nonneg. apply Forall_forall. intros y Hy.
  apply list_elem_of_In, in_map_iff in Hy as (x & <- & _).
  apply (Rle_0_sqr x).
Qed.

Lemma total_norm_scale (c : R) (grads : list (list R)) :
  0 <= c ->
  total_norm (map (Tensor.mul_scalar c) grads) = c * total_norm grads.
Proof.
  intros Hc. unfold total_norm, Tensor.mul_scalar.
  rewrite concat_map_map, sum_squares_scale.
  rewrite sqrt_mult; [|nra|apply sum_squares_nonneg].
  rewrite sqrt_square by exact Hc. reflexivity.
Qed.

(** X21.  Line 175: for a bound that is not negative, the clipped gradients have
    a 2-norm of at most the bound; they are the gradients scaled by one
    common factor between 0 and 1, and they are the gradients themselves
    when their norm plus 1e-6 does not exceed the bound. *)
Theorem clip_grad_norm_bound (max_norm : R) (grads : list (list R)) :
  0 <= max_norm ->
  total_norm (clip_grad_norm max_norm grads) <= max_norm /\
  (exists c, 0 <= c <= 1 /\
     clip_grad_norm max_norm grads = map (Tensor.mul_scalar c) grads) /\
  (total_norm grads + / 1000000 <= max_norm ->
     clip_grad_norm max_norm grads = grads).
Proof.
  intros Hm.
  assert (HN : 0 <= total_norm grads) by apply sqrt_pos.
  assert (Heps : 0 < / 1000000) by (apply Rinv_0_lt_compat; lra).
  set (N := total_norm grads) in *.
  assert (Hinv : 0 < / (N + / 1000000)) by (apply Rinv_0_lt_compat; lra).
  assert (HcN : max_norm / (N + / 1000000) * N <= max_norm).
  { unfold Rdiv. rewrite Rmult_assoc.
    rewrite <- (Rmult_1_r max_norm) at 2.
    apply Rmult_le_compat_l; [exact Hm|].
    apply (Rmult_le_reg_l (N + / 1000000)); [lra|].
    rewrite <- Rmult_assoc, Rinv_r by lra. lra. }
  assert (Hc0 : 0 <= max_norm / (N + / 1000000)).
  { unfold Rdiv. apply Rmult_le_pos; lra. }
  unfold clip_grad_norm. fold N.
  destruct (Rlt_dec (max_norm / (N + / 1000000)) 1) as [Hlt|Hge].
  - split; [|split].
    + rewrite total_norm_scale by exact Hc0. fold N. exact HcN.
    + exists (max_norm / (N + / 1000000)). split; [lra | reflexivity].
    + intros Hle. exfalso. apply (Rlt_irrefl 1).
      eapply Rle_lt_trans; [|exact Hlt].
      apply (Rmult_le_reg_r (N + / 1000000)); [lra|].
      unfold Rdiv. rewrite Rmult_assoc, Rinv_l by lra. lra.
  - split; [|split].
    + fold N. apply Rnot_lt_le in Hge.
      assert (N + / 1000000 <= max_norm).
      { apply (Rmult_le_compat_r (N + / 1000000)) in Hge; [|lra].
        unfold Rdiv in Hge. rewrite Rmult_assoc, Rinv_l in Hge by lra. lra. }
      lra.
    + exists 1. split; [lra|]. unfold Tensor.mul_scalar.
      rewrite <- (map_id grads) at 1. apply map_ext. intros g.
      rewrite <- (map_id g) at 1. apply map_ext. intros x. ring.
    + reflexivity.
Qed.

End Clip.

(** ** More on the window and on the set-up of the networks *)

Section WindowMore.

Import Train.

Context {Frame : Type}.

(** X22.  Sliding keeps the size of a window that is not empty and puts the new
    frame last; after four slides a window of four frames holds the four
    new frames, oldest first, and nothing of what it held before. *)
Theorem window_after_four_slides (w : list Frame) (a b c d : Frame) :
  length w = 4 ->
  length (slide w a) = 4 /\ last (slide w a) = Some a /\
  slide (slide (slide (slide w a) b) c) d = [a; b; c; d].
Proof.
  intros H. destruct w as [|w1 [|w2 [|w3 [|w4 [|w5 w]]]]]; try discriminate.
  repeat split; reflexivity.
Qed.

End WindowMore.

Section SetUp.

Import Params Main.

Lemma parameters_assign (net : Net) (vs : list (list R)) (h : Store) :
  NoDup net -> length vs = length net ->
  parameters (assign net vs h) net = Ok vs.
Proof.
  intros Hnd Hlen.
  destruct (parameters_ok (assign net vs h) net) as [ps Hps].
  { intros x Hx. apply list_elem_of_lookup in Hx as [i Hi].
    destruct (lookup_lt_is_Some_2 vs i) as [v Hv].
    { rewrite Hlen. eapply lookup_lt_Some, Hi. }
    rewrite (assign_lookup net vs h i x v Hnd Hi Hv). eauto. }
  rewrite Hps. f_equal.
  destruct (parameters_lookup _ _ _ Hps) as [Hl Hlk].
  apply list_eq_same_length with (n := length net); [exact Hlen | exact Hl|].
  intros i x y Hi Hx Hy.
  destruct (lookup_lt_is_Some_2 net i) as [l Hli]; [exact Hi|].
  rewrite <- (Hlk i l Hli) in Hx.
  rewrite (assign_lookup net vs h i l y Hnd Hli Hy) in Hx. congruence.
Qed.

(** X23.  main.py, lines 169-170: when the two networks keep their parameters in
    separate storage and the values left by [reset_parameters] have the
    sizes of the tensors of the target network, the set-up succeeds; both
    networks then hold exactly these values, and no other tensor of the
    store has changed. *)
Theorem run_setup_spec (q_network t_network : Net) (init : list (list R))
    (h : Store) :
  NoDup q_network -> NoDup t_network ->
  (forall x, x ∈ t_network -> x ∉ q_network) ->
  length t_network = length q_network ->
  length init = length q_network ->
  (forall i lt v, t_network !! i = Some lt -> init !! i = Some v ->
     exists old, h !! lt = Some old /\ length old = length v) ->
  exists h',
    run_setup q_network t_network init h = Ok h' /\
    parameters h' q_network = Ok init /\
    parameters h' t_network = Ok init /\
    forall x, x ∉ q_network -> x ∉ t_network -> h' !! x = h !! x.
Proof.
  intros Hq Ht Hsep Hlen Hinit Hsh. unfold run_setup.
  set (h1 := assign q_network init h).
  assert (Hpq : parameters h1 q_network = Ok init)
    by (apply parameters_assign; assumption).
  destruct (load_state_dict_ok t_network (state_dict q_network) h1 Hlen Ht Hsep)
    as [h' Hload].
  { intros i lt lq Hlt Hlq.
    destruct (lookup_lt_is_Some_2 init i) as [v Hv].
    { rewrite Hinit. eapply lookup_lt_Some, Hlq. }
    destruct (Hsh i lt v Hlt Hv) as (old & Ho & Hov).
    exists old, v. split; [|split; [|exact Hov]].
    - unfold h1. rewrite assign_other; [exact Ho|]. apply Hsep.
      eapply list_elem_of_lookup_2, Hlt.
    - unfold h1. eapply assign_lookup; eassumption. }
  exists h'. split; [exact Hload|].
  destruct (load_state_dict_spec _ _ _ _ Hload Ht Hsep) as (_ & Hother & Hcopy).
  split; [|split].
  - rewrite <- Hpq. apply parameters_same. intros x Hx. apply Hother.
    intros Hin. exact (Hsep x Hin Hx).
  - rewrite <- Hpq. apply parameters_ext; [exact Hlen | exact Hcopy].
  - intros x Hxq Hxt. rewrite Hother by exact Hxt.
    unfold h1. apply assign_other. exact Hxq.
Qed.

End SetUp.

(** ** The properties above on the small instances *)

Import MoreExamples.

Lemma DDDQN_compute_loss_spec_witness :
  exists loss absolute_error,
    Loss.DDDQN_compute_loss [1; 2]%R [1; 3]%R [1; 1]%R
    = Ok (loss, absolute_error) /\
    length absolute_error = length [1; 2]%R /\
    (forall i q t, [1; 2]%R !! i = Some q -> [1; 3]%R !! i = Some t ->
       absolute_error !! i = Some (Rabs (t - q))) /\
    loss = Tensor.mean (zip_with (fun w e => w * (e * e))%R [1; 1]%R
                          absolute_error) /\
    (Forall (fun w => 0 <= w)%R [1; 1]%R -> (0 <= loss)%R) /\
    ([1; 2]%R = [1; 3]%R ->
       loss = 0%R /\ Forall (fun e => e = 0%R) absolute_error).
Proof.
  apply (DDDQN_compute_loss_spec [1; 2]%R [1; 3]%R [1; 1]%R).
  - reflexivity.
  - reflexivity.
  - discriminate.
Defined.

Lemma dueling_mean_is_value_witness :
  exists q,
    DDDQN.forward dueling_example [5; 7]%nat !! 1%nat = Some q /\
    Tensor.sum (map (fun a => a - Tensor.mean
                                   (DDDQN.advantage_stream dueling_example 7%nat))%R
                  (DDDQN.advantage_stream dueling_example 7%nat)) = 0%R /\
    Tensor.mean q = DDDQN.value_stream dueling_example 7%nat.
Proof.
  apply (dueling_mean_is_value dueling_example [5; 7]%nat 1%nat 7%nat).
  - reflexivity.
  - discriminate.
Defined.

Lemma dueling_argmax_is_advantage_argmax_witness :
  exists q,
    DDDQN.forward dueling_example [5; 7]%nat !! 1%nat = Some q /\
    Tensor.argmax q = Tensor.argmax (DDDQN.advantage_stream dueling_example 7%nat).
Proof.
  apply (dueling_argmax_is_advantage_argmax dueling_example [5; 7]%nat 1%nat 7%nat).
  reflexivity.
Defined.

Lemma dueling_advantage_shift_witness :
  DDDQN.forward dueling_shifted [5; 7]%nat
  = DDDQN.forward dueling_example [5; 7]%nat.
Proof.
  apply (dueling_advantage_shift dueling_example dueling_shifted
           (fun _ => 3%R) [5; 7]%nat).
  - intros s. reflexivity.
  - intros s. reflexivity.
Defined.

Lemma policy_fn_probabilities_witness :
  exists A best,
    DQN.policy_fn dqn_example 3%nat (1 / 10)%R = Ok A /\
    Tensor.argmax (DQN.q_fun dqn_example 3%nat) = Ok best /\
    (forall a p, A !! a = Some p -> (0 <= p <= 1)%R) /\
    (forall a p pb, A !! a = Some p -> A !! best = Some pb -> (p <= pb)%R) /\
    ((1 / 10)%R = 0%R ->
       A !! best = Some 1%R /\
       forall a p, a <> best -> A !! a = Some p -> p = 0%R).
Proof.
  apply (policy_fn_probabilities dqn_example 3%nat (1 / 10)%R).
  - simpl. lia.
  - reflexivity.
  - lra.
Defined.

Lemma epsilon_strictly_decreasing_witness :
  (5 / 100 < DDDQN.eps_threshold (5 / 100) (9 / 10) (1 / 200) 8
   /\ DDDQN.eps_threshold (5 / 100) (9 / 10) (1 / 200) 8
      < DDDQN.eps_threshold (5 / 100) (9 / 10) (1 / 200) 3)%R.
Proof.
  apply (epsilon_strictly_decreasing (5 / 100) (9 / 10) (1 / 200) 3 8).
  - lra.
  - lra.
  - lia.
Defined.

Lemma epsilon_tends_to_end_witness :
  exists N : Z, (0 <= N)%Z /\
    forall s, (N <= s)%Z ->
      (5 / 100 <= DDDQN.eps_threshold (5 / 100) (9 / 10) (1 / 200) s
       < 5 / 100 + 1 / 1000)%R.
Proof.
  apply (epsilon_tends_to_end (5 / 100) (9 / 10) (1 / 200) (1 / 1000)).
  - lra.
  - lra.
  - lra.
Defined.


Lemma td_target_monotone_witness :
  exists t_values t_values',
    Train.td_target (1 / 2) [1; 3]%R [0; 1]%R [[2; 4]; [5; 6]]%R = Ok t_values /\
    Train.td_target (1 / 2) [1; 3]%R [0; 1]%R [[3; 4]; [5; 7]]%R = Ok t_values' /\
    Forall2 Rle t_values t_values' /\
    forall i r row m y,
      [1; 3]%R !! i = Some r -> [[2; 4]; [5; 6]]%R !! i = Some row ->
      Tensor.max_value row = Ok m -> (0 <= m)%R -> t_values !! i = Some y ->
      (r <= y <= r + 1 / 2 * m)%R.
Proof.
  do 2 eexists. split; [reflexivity|]. split; [reflexivity|].
  apply (td_target_monotone (1 / 2) [1; 3]%R [0; 1]%R
           [[2; 4]; [5; 6]]%R [[3; 4]; [5; 7]]%R).
  - lra.
  - repeat constructor; lra.
  - reflexivity.
  - reflexivity.
  - repeat constructor; lra.
  - reflexivity.
  - reflexivity.
Defined.

Lemma warm_up_only_collects_witness :
  let st := stub 3 1 ends in
  let l := Train.reset_state st (Train.initial st 0%nat stub_heap tt) in
  exists l',
    Train.populate st 3 l = Ok l' /\
    Train.heap l' = Train.heap l /\ Train.opt l' = Train.opt l /\
    Observe.updates (Train.trace l') = Observe.updates (Train.trace l) /\
    Observe.yields (Train.trace l') = Observe.yields (Train.trace l) /\
    Observe.env_steps (Train.trace l') = (Observe.env_steps (Train.trace l) + 3)%nat /\
    length (Episode.added (Train.trace l'))
    = (length (Episode.added (Train.trace l)) + 3)%nat /\
    Train.GLOBAL_STEP l' = (Train.GLOBAL_STEP l + Z.of_nat 3)%Z.
Proof.
  intros st l. eexists. split.
  - run. reflexivity.
  - apply (warm_up_only_collects st 3 l). run. reflexivity.
Defined.

(** A second call of [work], which finds the counter at 6. *)
Lemma work_counts_witness :
  let st := stub 3 1 ends in
  exists l,
    Train.work_from st 6 5 0%nat stub_heap tt = Ok l /\
    Observe.env_steps (Train.trace l)
    = (Train.replay_memory_init_size (Train.args st) + 5)%nat /\
    length (Episode.added (Train.trace l))
    = (Train.replay_memory_init_size (Train.args st) + 5)%nat /\
    Observe.updates (Train.trace l) = 5%nat /\
    (Observe.yields (Train.trace l) <= 5)%nat /\
    Train.i_episode l = Z.of_nat (Observe.yields (Train.trace l)) /\
    Train.GLOBAL_STEP l
    = (6 + Z.of_nat (Train.replay_memory_init_size (Train.args st) + 5)
       - Z.of_nat (Observe.yields (Train.trace l)))%Z.
Proof.
  intros st. eexists. split.
  - run. reflexivity.
  - apply (work_counts st 6 5 0%nat stub_heap tt). run. reflexivity.
Defined.

Lemma zero_period_raises_witness :
  let st := stub_two_actions 0 0 1 ends in
  let l := Train.episode_start st
             (Train.reset_state st (Train.initial st 0%nat stub_heap tt)) in
  Train.body st 0 l = Raise ZeroDivisionError /\
  forall fuel, Train.main_loop st (S fuel) 0 l = Raise ZeroDivisionError.
Proof.
  intros st l.
  eapply (zero_period_raises st 0%Z l).
  - reflexivity.
  - run. reflexivity.
Defined.

Lemma target_changes_only_on_sync_witness :
  let st := stub 0 1 ends in
  let l := Train.episode_start st
             (Train.reset_state st (Train.initial st 0%nat stub_heap tt)) in
  exists l' d,
    Train.body st 0 l = Ok (l', d) /\
    ((Train.GLOBAL_STEP l mod Train.update_target_estimator_every (Train.args st)
      <> 0)%Z ->
       Params.parameters (Train.heap l') (Train.t_network st)
       = Params.parameters (Train.heap l) (Train.t_network st)) /\
    ((Train.GLOBAL_STEP l mod Train.update_target_estimator_every (Train.args st)
      = 0)%Z ->
       Params.parameters (Train.heap l') (Train.t_network st)
       = Params.parameters (Train.heap l) (Train.q_network st)).
Proof.
  intros st l. do 2 eexists. split.
  - run. reflexivity.
  - eapply (target_changes_only_on_sync st 0%Z l).
    + apply NoDup_singleton.
    + intros x Hx Hq. apply list_elem_of_singleton in Hx, Hq. congruence.
    + run. reflexivity.
Defined.

Lemma transitions_chain_witness :
  let st := stub 3 1 ends in
  exists l,
    Train.work st 5 0%nat stub_heap tt = Ok l /\
    Episode.chained (Episode.added (Train.trace l)) /\
    Forall Episode.well_built (Episode.added (Train.trace l)).
Proof.
  intros st. eexists. split.
  - run. reflexivity.
  - apply (transitions_chain st 5 0%nat stub_heap tt). run. reflexivity.
Defined.

Lemma episode_statistics_witness :
  let st := stub 0 1 ends in
  let l := Train.episode_start st
             (Train.reset_state st (Train.initial st 0%nat stub_heap tt)) in
  exists l' n new last,
    Episode.run_episode st 5 0 l = Ok (l', true) /\
    (1 <= n <= 5)%nat /\ length new = n /\
    Episode.added (Train.trace l') = new ++ Episode.added (Train.trace l) /\
    head new = Some last /\ Train.done last = 1%R /\
    Train.episode_lengths l' = (0 + Z.of_nat n - 1)%Z /\
    Train.episode_rewards l'
    = (Train.episode_rewards l + Tensor.sum (map Train.reward new))%R /\
    Train.GLOBAL_STEP l' = (Train.GLOBAL_STEP l + Z.of_nat n - 1)%Z /\
    forall k, Train.main_loop st (n + k) 0 l
              = Train.main_loop st k 0
                  (Train.episode_start st (Train.episode_end l')).
Proof.
  intros st l.
  assert (H : exists l', Episode.run_episode st 5 0 l = Ok (l', true)).
  { eexists. run. reflexivity. }
  destruct H as [l' H]. exists l'.
  destruct (episode_statistics st 5 0%Z l l' H) as (n & new & last & Hrest).
  exists n, new, last. split; [exact H | exact Hrest].
Defined.

Lemma clip_grad_norm_bound_witness :
  (Optim.total_norm (Optim.clip_grad_norm 30 [[3; 4]]) <= 30)%R /\
  (exists c, (0 <= c <= 1)%R /\
     Optim.clip_grad_norm 30 [[3; 4]]%R = map (Tensor.mul_scalar c) [[3; 4]]%R) /\
  ((Optim.total_norm [[3; 4]] + / 1000000 <= 30)%R ->
     Optim.clip_grad_norm 30 [[3; 4]]%R = [[3; 4]]%R).
Proof.
  apply (clip_grad_norm_bound 30 [[3; 4]]%R). lra.
Defined.

Lemma window_after_four_slides_witness :
  length (Train.slide [1; 2; 3; 4]%nat 5%nat) = 4 /\
  last (Train.slide [1; 2; 3; 4]%nat 5%nat) = Some 5%nat /\
  Train.slide (Train.slide (Train.slide (Train.slide [1; 2; 3; 4]%nat 5%nat)
                              6%nat) 7%nat) 8%nat
  = [5; 6; 7; 8]%nat.
Proof.
  apply (window_after_four_slides [1; 2; 3; 4]%nat 5%nat 6%nat 7%nat 8%nat).
  reflexivity.
Defined.

Lemma run_setup_spec_witness :
  exists h',
    Main.run_setup [0%nat] [1%nat] [[2%R]] stub_heap = Ok h' /\
    Params.parameters h' [0%nat] = Ok [[2%R]] /\
    Params.parameters h' [1%nat] = Ok [[2%R]] /\
    forall x, x ∉ [0%nat] -> x ∉ [1%nat] -> h' !! x = stub_heap !! x.
Proof.
  apply (run_setup_spec [0%nat] [1%nat] [[2%R]] stub_heap).
  - apply NoDup_singleton.
  - apply NoDup_singleton.
  - intros x Hx Hq. apply list_elem_of_singleton in Hx, Hq. congruence.
  - reflexivity.
  - reflexivity.
  - intros [|i] lt v Ht Hv; [|discriminate].
    injection Ht as <-. injection Hv as <-.
    exists [5%R]. split; [run; reflexivity | reflexivity].
Defined.
